(** * Syscraws: lowering of the syntax tree ([ast.cpp])

    A shallow embedding of [src/ast.cpp]: the compilation context with its
    operator table, expression lowering ([translate], [translate_func]),
    statement lowering, [Stmt::run] and the debug dump, together with the
    parts of the type registry and of the IR that [ast.cpp] relies on. *)

From Stdlib Require Import ZArith String Ascii.
From Stdlib Require Import Floats.SpecFloat.
From stdpp Require Import base option list strings pretty.

#[local] Set Warnings "-register-all".

(** A C++ [double]: an IEEE 754 value given by its sign, mantissa and
    exponent. *)
Abbreviation double := spec_float.

(** ** Source positions *)

Module pos.
(** Modelled from the spec: [pos::Range] is declared outside [ast.cpp]
    ("an opaque span type attached to every node, used only for
    diagnostics").  A span is taken to be a pair of offsets. *)
Record Range := mkRange { first : nat; last : nat }.
End pos.

(** ** The type registry *)

Module type.

(** Modelled from the spec: the classes of [type.hpp] are declared outside
    [ast.cpp] ("Type - variants: Int, Bool, Float, Func(params, ret).
    Instances are interned").  A [const type::Type &] is modelled by the
    object it refers to.  The three primitive types are the registry's own
    members; a function type object carries the slot [id] of the registry it
    lives in, which is its identity. *)
Inductive Type_ :=
| Int
| Bool
| Float
| Fn (id : nat) (args : list Type_) (ret : Type_).

(** Modelled from the spec: [const type::Func &], a function type object,
    with the accessors [get_args] and [get_ret] that [ast.cpp] calls. *)
Record Func := mkFunc {
  func_id : nat;
  get_args : list Type_;
  get_ret : Type_
}.

(** The implicit conversion from [const Func &] to [const Type &]. *)
Definition upcast (f : Func) : Type_ :=
  Fn (func_id f) (get_args f) (get_ret f).

(** Addresses of type objects: [&t]. *)
Inductive Addr := AInt | ABool | AFloat | AFunc (id : nat).

Definition addr (t : Type_) : Addr :=
  match t with
  | Int => AInt
  | Bool => ABool
  | Float => AFloat
  | Fn id _ _ => AFunc id
  end.

#[global] Instance Addr_eq_dec : EqDecision Addr.
Proof. solve_decision. Defined.

(** The structure of a type, as the data model describes it: identities
    erased. *)
Inductive Shape :=
| SInt
| SBool
| SFloat
| SFunc (params : list Shape) (ret : Shape).

Fixpoint shape (t : Type_) : Shape :=
  match t with
  | Int => SInt
  | Bool => SBool
  | Float => SFloat
  | Fn _ args ret => SFunc (map shape args) (shape ret)
  end.

(** Modelled from the spec: the registry class behind [ctx.ty] is declared
    outside [ast.cpp].  Following the spec ("interns primitive and function
    types", "structural interning for function types: two function types
    with equal param sequences and equal return type are the same
    object"), it is an arena of function type objects; the slot of an
    object is its identity. *)
Record Registry := mkRegistry { funcs : list Func }.

Definition empty : Registry := mkRegistry [].

(** Modelled from the spec: [get_int()], [get_bool()] and [get_float()]
    ("each returns a stable reference to a canonical instance"). *)
Definition get_int (reg : Registry) : Type_ := Int.
Definition get_bool (reg : Registry) : Type_ := Bool.
Definition get_float (reg : Registry) : Type_ := Float.

(** The signature of [f] is made of the very objects [args] and [ret]. *)
Definition same_sig (args : list Type_) (ret : Type_) (f : Func) : Prop :=
  map addr (get_args f) = map addr args ∧ addr (get_ret f) = addr ret.

#[global] Instance same_sig_dec args ret f : Decision (same_sig args ret f).
Proof. unfold same_sig. apply _. Defined.

(** Modelled from the spec: [get_func(params, ret)] ("repeated calls with
    structurally-equal arguments must return the same instance"): the
    object of that signature when the arena holds one, a new object in the
    next free slot otherwise. *)
Definition get_func (args : list Type_) (ret : Type_) (reg : Registry)
  : Func * Registry :=
  match list_find (same_sig args ret) (funcs reg) with
  | Some (_, f) => (f, reg)
  | None =>
      let f := mkFunc (length (funcs reg)) args ret in
      (f, mkRegistry (funcs reg ++ [f]))
  end.

(** [t] is an object of the registry [reg]. *)
Definition interned (reg : Registry) (t : Type_) : Prop :=
  match t with
  | Int | Bool | Float => True
  | Fn id args ret => funcs reg !! id = Some (mkFunc id args ret)
  end.

(** The invariant of the arena. *)
Record wf (reg : Registry) : Prop := mkWf {
  wf_id : ∀ i f, funcs reg !! i = Some f → func_id f = i;
  wf_closed : ∀ i f, funcs reg !! i = Some f →
    Forall (interned reg) (get_args f) ∧ interned reg (get_ret f);
  wf_unique : ∀ i j f g,
    funcs reg !! i = Some f → funcs reg !! j = Some g →
    same_sig (get_args f) (get_ret f) g → i = j
}.

(** Registries obtained from the empty one by requests for objects the
    registry already owns. *)
Inductive reachable : Registry → Prop :=
| reachable_empty : reachable empty
| reachable_get_func reg args ret :
    reachable reg →
    Forall (interned reg) args → interned reg ret →
    reachable (get_func args ret reg).2.

(** [reg'] still holds every object of [reg], at the same slot. *)
Definition extends (reg reg' : Registry) : Prop :=
  funcs reg `prefix_of` funcs reg'.

End type.

(** ** The intermediate representation *)

Module ir.

(** The IR classes that [ast.cpp] instantiates ([ir::IAdd], [ir::FAdd],
    [ir::IEq], [ir::Imm], [ir::Call], [ir::ExprStmt], [ir::FuncDef]) and
    [ir::Env], [invoke] and [ir::print] are declared outside [ast.cpp].
    They are given the shape the spec describes: expression trees made of
    immediates and calls, statement nodes linked to their continuation, and
    functions made of an entry node and a slot count. *)

(** Modelled from the spec: the native operations held by the operator
    table ("integer-add, float-add, integer-equal"). *)
Inductive Native := IAdd | FAdd | IEq.

(** Modelled from the spec: what an [ir::Imm] can carry and what an
    invocation yields ("immediate constants (integers, floats, function
    references)"). *)
Inductive Value :=
| VUnit
| VInt (z : Z)
| VBool (b : bool)
| VFloat (f : double)
| VFunc (f : Native).

(** Modelled from the spec: the expression nodes [ast.cpp] builds,
    [ir::Imm(value)] and [ir::Call(func_expr, args_expr)]. *)
Inductive Expr :=
| Imm (v : Value)
| Call (func : Expr) (args : list Expr).

(** Modelled from the spec: the statement node [ast.cpp] builds,
    [ir::ExprStmt(expr, next)]; [next] is the [std::shared_ptr<ir::Stmt>]
    it continues to, [None] for the null pointer that ends the function. *)
Inductive Stmt :=
| ExprStmt (expr : Expr) (next : option Stmt).

(** Modelled from the spec: [ir::FuncDef], with the members [entry] and
    [num_locals] that [Stmt::run] uses. *)
Record FuncDef := mkFuncDef {
  entry : option Stmt;
  num_locals : nat
}.

(** [std::make_shared<ir::FuncDef>()]: value-initialised. *)
Definition FuncDef_new : FuncDef := mkFuncDef None 0.

(** Modelled from the spec: "an ordered, fixed-size sequence of value
    slots sized to a function's declared local count; created per
    invocation". *)
Definition Frame := list Value.

(** Modelled from the spec: [ir::Env], the environment an invocation runs
    against, taken to be the frames alive. *)
Definition Env := list Frame.

(** Modelled from the spec: "allocate a frame sized to the function's local
    count, bind argument values into the first slots". *)
Definition new_frame (n : nat) (args : list Value) : Frame :=
  take n (args ++ replicate n VUnit).

Section Execution.

(** The host semantics of invoking a callee value on argument values
    (the spec leaves the numeric details of the native operations
    open). *)
Variable apply : Value → list Value → Value.

(** Modelled from the spec: "immediates yield their embedded constant or
    function reference; Call evaluates the callee reference then evaluates
    arguments left to right then invokes". *)
Fixpoint eval (frame : Frame) (e : Expr) : Value :=
  match e with
  | Imm v => v
  | Call func args =>
      let callee := eval frame func in
      apply callee (map (eval frame) args)
  end.

(** Modelled from the spec: the walk from the active node to the terminal
    one; an expression statement evaluates its expression and drops the
    value ("lower e for its value, discard the value"), and the result is
    unit when the walk ends without a value. *)
Fixpoint exec_from (frame : Frame) (node : Stmt) : Value :=
  match node with
  | ExprStmt expr next =>
      let _ := eval frame expr in
      match next with
      | Some node' => exec_from frame node'
      | None => VUnit
      end
  end.

Definition exec (frame : Frame) (node : option Stmt) : Value :=
  match node with
  | Some node' => exec_from frame node'
  | None => VUnit
  end.

(** Modelled from the spec: a walk of the graph for the nodes [ast.cpp]
    builds, which leaves the environment as it is. *)
Definition walk_statements (env : Env) (frame : Frame)
    (node : option Stmt) : Value * Env :=
  (exec frame node, env).

End Execution.

(** Modelled from the spec: [FuncDef::invoke(env, args)], "allocate a frame
    sized to the function's local count, bind argument values into the first
    slots, set the active node to the function's entry node", then walk the
    graph "until a terminal node is reached, which yields the invocation's
    result".  The walk belongs to the execution engine, of which [ast.cpp]
    shows nothing: it is the parameter [walk], run against the environment,
    in the new frame, from the entry node. *)
Definition invoke (walk : Env → Frame → option Stmt → Value * Env)
    (f : FuncDef) (env : Env) (args : list Value) : Value * Env :=
  let frame := new_frame (num_locals f) args in
  walk env frame (entry f).

End ir.

(** ** The syntax tree and its lowering *)

Module ast.

(** Modelled from the spec: the [Operator] enumeration and [NumOps] are
    declared outside [ast.cpp] ("a closed enumeration of syntactic
    operators", which "indexes the Operator Table").  The enumerators are
    those of the [switch] in [OperatorExpr::debug_print], numbered in that
    order, and [NumOps] is their number. *)
Inductive Operator :=
| Plus
| Minus
| Recip
| LogicalNot
| BitNot
| PreInc
| PreDec
| PostInc
| PostDec
| Add
| Sub
| Mul
| Div
| Rem
| LeftShift
| RightShift
| ForwardShift
| BackwardShift
| Equal
| NotEqual
| Less
| LessEqual
| Greater
| GreaterEqual
| LogicalAnd
| LogicalOr
| BitAnd
| BitOr
| BitXor
| Assign
| AddAssign
| SubAssign
| MulAssign
| DivAssign
| RemAssign
| BitAndAssign
| BitOrAssign
| BitXorAssign
| LeftShiftAssign
| RightShiftAssign
| ForwardShiftAssign
| BackwardShiftAssign.

#[global] Instance Operator_eq_dec : EqDecision Operator.
Proof. solve_decision. Defined.

(** Modelled from the spec: the value of an enumerator, by which [ops] is
    indexed. *)
Definition index (op : Operator) : nat :=
  match op with
  | Plus => 0
  | Minus => 1
  | Recip => 2
  | LogicalNot => 3
  | BitNot => 4
  | PreInc => 5
  | PreDec => 6
  | PostInc => 7
  | PostDec => 8
  | Add => 9
  | Sub => 10
  | Mul => 11
  | Div => 12
  | Rem => 13
  | LeftShift => 14
  | RightShift => 15
  | ForwardShift => 16
  | BackwardShift => 17
  | Equal => 18
  | NotEqual => 19
  | Less => 20
  | LessEqual => 21
  | Greater => 22
  | GreaterEqual => 23
  | LogicalAnd => 24
  | LogicalOr => 25
  | BitAnd => 26
  | BitOr => 27
  | BitXor => 28
  | Assign => 29
  | AddAssign => 30
  | SubAssign => 31
  | MulAssign => 32
  | DivAssign => 33
  | RemAssign => 34
  | BitAndAssign => 35
  | BitOrAssign => 36
  | BitXorAssign => 37
  | LeftShiftAssign => 38
  | RightShiftAssign => 39
  | ForwardShiftAssign => 40
  | BackwardShiftAssign => 41
  end.

(** Modelled from the spec: [NumOps], the number of operators. *)
Definition NumOps : nat := 42.

(** Modelled from the spec: the errors of [error.hpp], which is not part
    of [ast.cpp] ("NoMatchingOverload(operator, arg types, span)"). *)
Inductive Error :=
| NoMatchingOverload (op : Operator) (args : list type.Type_)
    (pos : pos.Range).

(** Behaviour the C++ standard leaves undefined. *)
Inductive Undefined :=
| NullDereference   (* a member call through a null [unique_ptr] *)
| MissingReturn     (* control reaches the end of a value-returning body *)
| OutOfRange.       (* [operator[]] past the end of a vector *)

(** How a call ends. *)
Inductive outcome (A : Type) :=
| Returns (a : A)
| Throws (e : Error)
| Undef (u : Undefined).
Arguments Returns {A} a.
Arguments Throws {A} e.
Arguments Undef {A} u.

Definition bind {A B} (m : outcome A) (k : A → outcome B) : outcome B :=
  match m with
  | Returns a => k a
  | Throws e => Throws e
  | Undef u => Undef u
  end.

(** An entry of the operator table: the function type and the
    implementation. *)
Definition Overload : Type := type.Func * ir.Native.

Record Context := mkContext {
  ty : type.Registry;
  ops : list (list Overload)
}.

(** [ops[op].emplace_back(ty, func)] *)
Definition emplace_back (op : Operator) (entry : Overload)
    (ops : list (list Overload)) : outcome (list (list Overload)) :=
  match ops !! index op with
  | Some overloads => Returns (<[index op := overloads ++ [entry]]> ops)
  | None => Undef OutOfRange
  end.

(** [Context::Context()] *)
Definition Context_new : outcome Context :=
  let ty0 := type.empty in
  let ops0 := replicate NumOps [] in
  let int_ty := type.get_int ty0 in
  let bool_ty := type.get_bool ty0 in
  let float_ty := type.get_float ty0 in
  let '(iadd_ty, ty1) := type.get_func [int_ty; int_ty] int_ty ty0 in
  bind (emplace_back Add (iadd_ty, ir.IAdd) ops0) (λ ops1,
  let '(fadd_ty, ty2) := type.get_func [float_ty; float_ty] float_ty ty1 in
  bind (emplace_back Add (fadd_ty, ir.FAdd) ops1) (λ ops2,
  let '(ieq_ty, ty3) := type.get_func [int_ty; int_ty] bool_ty ty2 in
  bind (emplace_back Equal (ieq_ty, ir.IEq) ops2) (λ ops3,
  Returns (mkContext ty3 ops3)))).

(** Lowering runs against a [Context &]: the context is threaded through
    every call and handed back, also when the call does not return. *)
Definition M (A : Type) : Type := Context → outcome A * Context.

(** *** Expressions *)

(** The classes derived from [Expr], with the members their constructors
    set; the [value] of an [Int] is a [std::int32_t]. *)
Inductive Expr :=
| Identifier (pos : pos.Range) (name : string)
| Int (pos : pos.Range) (value : Z)
| Float (pos : pos.Range) (value : double)
| String (pos : pos.Range) (value : string)
| Call (pos : pos.Range) (func : Expr) (args : list Expr)
| OperatorExpr (pos : pos.Range) (op : Operator).

Definition get_pos (e : Expr) : pos.Range :=
  match e with
  | Identifier pos _ | Int pos _ | Float pos _ | String pos _
  | Call pos _ _ | OperatorExpr pos _ => pos
  end.

(** Modelled from the spec: the [TODO] macro comes from [error.hpp], which
    is not part of [ast.cpp]; "If no entry matches, lowering fails with
    NoMatchingOverload(operator, arg types, span)". *)
Definition TODO (op : Operator) (expected_args : list type.Type_)
    (pos : pos.Range) : Error :=
  NoMatchingOverload op expected_args pos.

(** One round of the inner loop of [OperatorExpr::translate_func]:
    [if(&args[i].get() != &expected_args[i].get()) is_matched = false;] *)
Definition compare_at (args expected_args : list type.Type_)
    (is_matched : outcome bool) (i : nat) : outcome bool :=
  bind is_matched (λ matched,
    match args !! i, expected_args !! i with
    | Some a, Some e =>
        Returns (if decide (type.addr a ≠ type.addr e) then false
                 else matched)
    | _, _ => Undef OutOfRange
    end).

(** [bool is_matched = true; for(i = 0; i < expected_num_args; i++) ...] *)
Definition compare_all (args expected_args : list type.Type_)
    (expected_num_args : nat) : outcome bool :=
  foldl (compare_at args expected_args) (Returns true)
    (seq 0 expected_num_args).

(** The loop over [ctx.ops[op]]; [None] when it runs to its end. *)
Fixpoint scan (overloads : list Overload)
    (expected_args : list type.Type_) (expected_num_args : nat)
  : outcome (option (type.Func * ir.Expr)) :=
  match overloads with
  | [] => Returns None
  | (ty, func) :: rest =>
      let args := type.get_args ty in
      if decide (length args ≠ expected_num_args)
      then scan rest expected_args expected_num_args
      else
        bind (compare_all args expected_args expected_num_args)
          (λ is_matched,
            if is_matched then Returns (Some (ty, ir.Imm (ir.VFunc func)))
            else scan rest expected_args expected_num_args)
  end.

(** [OperatorExpr::translate_func] *)
Definition OperatorExpr_translate_func (pos : pos.Range) (op : Operator)
    (expected_args : list type.Type_) : M (type.Func * ir.Expr) :=
  λ ctx,
    let expected_num_args := length expected_args in
    match ops ctx !! index op with
    | None => (Undef OutOfRange, ctx)
    | Some overloads =>
        match scan overloads expected_args expected_num_args with
        | Returns (Some found) => (Returns found, ctx)
        | Returns None => (Throws (TODO op expected_args pos), ctx)
        | Throws e => (Throws e, ctx)
        | Undef u => (Undef u, ctx)
        end
    end.

(** The virtual [translate_func]: only [OperatorExpr] overrides
    [Expr::translate_func], whose body is empty. *)
Definition translate_func (e : Expr) (expected_args : list type.Type_)
  : M (type.Func * ir.Expr) :=
  match e with
  | OperatorExpr pos op => OperatorExpr_translate_func pos op expected_args
  | _ => λ ctx, (Undef MissingReturn, ctx)
  end.

(** The loop of [Call::translate] over [args], which grows [args_type]
    and [args_expr] by [push_back]; [translate] is the lowering of one
    argument. *)
Fixpoint translate_args (translate : Expr → M (type.Type_ * ir.Expr))
    (rest : list Expr) (args_type : list type.Type_)
    (args_expr : list ir.Expr) : M (list type.Type_ * list ir.Expr) :=
  match rest with
  | [] => λ ctx, (Returns (args_type, args_expr), ctx)
  | arg :: rest' =>
      λ ctx,
        match translate arg ctx with
        | (Returns (type, expr), ctx') =>
            translate_args translate rest' (args_type ++ [type])
              (args_expr ++ [expr]) ctx'
        | (Throws e, ctx') => (Throws e, ctx')
        | (Undef u, ctx') => (Undef u, ctx')
        end
  end.

(** The virtual [translate].  The bodies of [Identifier::translate],
    [String::translate] and [OperatorExpr::translate] are empty. *)
Fixpoint translate (e : Expr) : M (type.Type_ * ir.Expr) :=
  match e with
  | Identifier _ _ => λ ctx, (Undef MissingReturn, ctx)
  | Int _ value =>
      λ ctx, (Returns (type.get_int (ty ctx), ir.Imm (ir.VInt value)), ctx)
  | Float _ value =>
      λ ctx,
        (Returns (type.get_float (ty ctx), ir.Imm (ir.VFloat value)), ctx)
  | String _ _ => λ ctx, (Undef MissingReturn, ctx)
  | Call _ func args =>
      λ ctx,
        match translate_args translate args [] [] ctx with
        | (Returns (args_type, args_expr), ctx1) =>
            match translate_func func args_type ctx1 with
            | (Returns (func_type, func_expr), ctx2) =>
                (Returns (type.get_ret func_type,
                          ir.Call func_expr args_expr), ctx2)
            | (Throws e, ctx2) => (Throws e, ctx2)
            | (Undef u, ctx2) => (Undef u, ctx2)
            end
        | (Throws e, ctx1) => (Throws e, ctx1)
        | (Undef u, ctx1) => (Undef u, ctx1)
        end
  | OperatorExpr _ _ => λ ctx, (Undef MissingReturn, ctx)
  end.

(** *** Type references, patterns and statements *)

Inductive Type_ :=
| TypeName (pos : pos.Range) (name : string).

Inductive Pat :=
| IdPat (pos : pos.Range) (name : string).

(** The pointers that the source checks or documents as possibly null are
    options. *)
Inductive Stmt :=
| ExprStmt (pos : pos.Range) (expr : option Expr)
| Block (pos : pos.Range) (stmts : list Stmt)
| If (pos : pos.Range) (cond : Expr) (stmt_true : Stmt)
    (stmt_false : option Stmt)
| While (pos : pos.Range) (cond : Expr) (stmt : Stmt)
| Break (pos : pos.Range)
| Continue (pos : pos.Range)
| Return (pos : pos.Range) (expr : option Expr)
| Decl (pos : pos.Range) (left : Pat) (type : option Type_)
    (right : option Expr).

(** A [std::shared_ptr<ir::Stmt>], possibly null. *)
Definition StmtPtr : Type := option ir.Stmt.

Section Statements.

(** [ast.cpp] defines no [translate] for [Block], [If], [While],
    [Break], [Continue] and [Return]: their lowering is a parameter. *)
Variable translate_elsewhere :
  Stmt → StmtPtr → nat → M (StmtPtr * nat).

(** The virtual [Stmt::translate(ctx, end, num_locals)]; the counter
    passed by reference is handed back.  [ExprStmt::translate] calls
    [expr->translate(ctx)] whatever [expr] is; the body of
    [Decl::translate] is empty. *)
Definition translate_stmt (s : Stmt) (end_ : StmtPtr) (num_locals : nat)
  : M (StmtPtr * nat) :=
  match s with
  | ExprStmt _ expr =>
      match expr with
      | None => λ ctx, (Undef NullDereference, ctx)
      | Some e =>
          λ ctx,
            match translate e ctx with
            | (Returns (_, ir_expr), ctx') =>
                (Returns (Some (ir.ExprStmt ir_expr end_), num_locals),
                 ctx')
            | (Throws err, ctx') => (Throws err, ctx')
            | (Undef u, ctx') => (Undef u, ctx')
            end
      end
  | Decl _ _ _ _ => λ ctx, (Undef MissingReturn, ctx)
  | _ => translate_elsewhere s end_ num_locals
  end.

(** The walk of the execution engine over a lowered graph. *)
Variable walk : ir.Env → ir.Frame → option ir.Stmt → ir.Value * ir.Env.

(** What [Stmt::run] leaves behind: the context, the environment and
    the values handed to [ir::print], oldest first. *)
Record World := mkWorld {
  world_ctx : Context;
  world_env : ir.Env;
  printed : list ir.Value
}.

(** [Stmt::run(ctx, env)] *)
Definition run (s : Stmt) (w : World) : outcome unit * World :=
  let tmp := ir.FuncDef_new in
  match translate_stmt s None (ir.num_locals tmp) (world_ctx w) with
  | (Returns (entry, num_locals), ctx') =>
      let tmp := ir.mkFuncDef entry num_locals in
      let '(result, env') := ir.invoke walk tmp (world_env w) [] in
      (Returns (), mkWorld ctx' env' (printed w ++ [result]))
  | (Throws err, ctx') =>
      (Throws err, mkWorld ctx' (world_env w) (printed w))
  | (Undef u, ctx') =>
      (Undef u, mkWorld ctx' (world_env w) (printed w))
  end.

End Statements.

(** *** The debug dump (compiled under [DEBUG]) *)

(** [operator<<(std::ostream &, const indent &)]: the loop writes two
    spaces [depth] times, and nothing for a [depth] below one.  The depth is
    an [int]; the sums [depth + 1] of the dump are taken in [Z], the nesting
    of a tree staying far below the bound of [int]. *)
Fixpoint indent_loop (n : nat) : string :=
  match n with
  | O => ""
  | S n' => "  " +:+ indent_loop n'
  end.

Definition indent (depth : Z) : string := indent_loop (Z.to_nat depth).

(** The [switch] of [OperatorExpr::debug_print]. *)
Definition Operator_name (op : Operator) : string :=
  match op with
  | Plus => "plus"
  | Minus => "minus"
  | Recip => "reciprocal"
  | LogicalNot => "logical not"
  | BitNot => "bitwise not"
  | PreInc => "prefix increment"
  | PreDec => "prefix decrement"
  | PostInc => "postfix increment"
  | PostDec => "postfix decrement"
  | Add => "add"
  | Sub => "sub"
  | Mul => "mul"
  | Div => "div"
  | Rem => "rem"
  | LeftShift => "left shift"
  | RightShift => "right shift"
  | ForwardShift => "forward shift"
  | BackwardShift => "backward shift"
  | Equal => "equal to"
  | NotEqual => "not equal to"
  | Less => "less than"
  | LessEqual => "less than or equal to"
  | Greater => "greater than"
  | GreaterEqual => "greater than or equal to"
  | LogicalAnd => "logical and"
  | LogicalOr => "logical or"
  | BitAnd => "bitwise and"
  | BitOr => "bitwise or"
  | BitXor => "bitwise xor"
  | Assign => "assign"
  | AddAssign => "add assign"
  | SubAssign => "sub assign"
  | MulAssign => "mul assign"
  | DivAssign => "div assign"
  | RemAssign => "rem assign"
  | BitAndAssign => "bitwise and assign"
  | BitOrAssign => "bitwise or assign"
  | BitXorAssign => "bitwise xor assign"
  | LeftShiftAssign => "left shift assign"
  | RightShiftAssign => "right shift assign"
  | ForwardShiftAssign => "forward shift assign"
  | BackwardShiftAssign => "backward shift assign"
  end.

Section DebugPrint.

(** The stream insertions of [pos::Range] and of [double] are not
    defined in [ast.cpp]. *)
Variable show_pos : pos.Range → string.
Variable show_double : double → string.

(** What a [debug_print] writes to [std::cout], one string for each
    line ended by [std::endl]. *)
Fixpoint Expr_debug_print (depth : Z) (e : Expr) : list string :=
  match e with
  | Identifier pos name =>
      [indent depth +:+ show_pos pos +:+ " identifier(" +:+ name +:+ ")"]
  | Int pos value =>
      [indent depth +:+ show_pos pos +:+ " integer(" +:+ pretty value
       +:+ ")"]
  | Float pos value =>
      [indent depth +:+ show_pos pos +:+ " float(" +:+ show_double value
       +:+ ")"]
  | String pos value =>
      [indent depth +:+ show_pos pos +:+ " string(" +:+ value +:+ ")"]
  | Call pos func args =>
      [indent depth +:+ show_pos pos +:+ " call"]
      ++ Expr_debug_print (depth + 1) func
      ++ [indent depth +:+ "args(" +:+ pretty (length args) +:+ "):"]
      ++ concat (map (Expr_debug_print (depth + 1)) args)
  | OperatorExpr pos op =>
      [indent depth +:+ show_pos pos +:+ " operator(" +:+ Operator_name op
       +:+ ")"]
  end.

Definition Type_debug_print (depth : Z) (t : Type_) : list string :=
  match t with
  | TypeName pos name =>
      [indent depth +:+ show_pos pos +:+ " type name(" +:+ name +:+ ")"]
  end.

Definition Pat_debug_print (depth : Z) (p : Pat) : list string :=
  match p with
  | IdPat pos name =>
      [indent depth +:+ show_pos pos +:+ " identifier pattern(" +:+ name
       +:+ ")"]
  end.

Fixpoint Stmt_debug_print (depth : Z) (s : Stmt) : list string :=
  match s with
  | ExprStmt pos expr =>
      match expr with
      | Some e =>
          [indent depth +:+ show_pos pos +:+ " expression statement"]
          ++ Expr_debug_print (depth + 1) e
      | None =>
          [indent depth +:+ show_pos pos
           +:+ " expression statement (empty)"]
      end
  | While pos cond stmt =>
      [indent depth +:+ show_pos pos +:+ " while"]
      ++ Expr_debug_print (depth + 1) cond
      ++ [indent depth +:+ "do"]
      ++ Stmt_debug_print (depth + 1) stmt
      ++ [indent depth +:+ "end while"]
  | If pos cond stmt_true stmt_false =>
      [indent depth +:+ show_pos pos +:+ " if"]
      ++ Expr_debug_print (depth + 1) cond
      ++ [indent depth +:+ "then"]
      ++ Stmt_debug_print (depth + 1) stmt_true
      ++ match stmt_false with
         | Some stmt_false' =>
             [indent depth +:+ "else"]
             ++ Stmt_debug_print (depth + 1) stmt_false'
         | None => []
         end
      ++ [indent depth +:+ "end if"]
  | Block pos stmts =>
      [indent depth +:+ show_pos pos +:+ " block"]
      ++ concat (map (Stmt_debug_print (depth + 1)) stmts)
      ++ [indent depth +:+ "end block"]
  | Break pos => [indent depth +:+ show_pos pos +:+ " break"]
  | Continue pos => [indent depth +:+ show_pos pos +:+ " continue"]
  | Return pos expr =>
      [indent depth +:+ show_pos pos +:+ " return"]
      ++ match expr with
         | Some e => Expr_debug_print (depth + 1) e
         | None => []
         end
  | Decl pos left_ type right_ =>
      [indent depth +:+ show_pos pos +:+ " decl"]
      ++ Pat_debug_print (depth + 1) left_
      ++ match type with
         | Some t => Type_debug_print (depth + 1) t
         | None => []
         end
      ++ match right_ with
         | Some e => Expr_debug_print (depth + 1) e
         | None => []
         end
  end.

End DebugPrint.

End ast.

(** ** The lowering rules, in the words of the specification *)

Module rule.

(** "the first entry whose parameter-type sequence has equal length and
    whose every parameter type is identical (by identity) to the
    corresponding argument type" *)
Definition exact_match (arg_types : list type.Type_)
    (entry : ast.Overload) : Prop :=
  length (type.get_args entry.1) = length arg_types
  ∧ Forall2 (λ param arg, type.addr param = type.addr arg)
      (type.get_args entry.1) arg_types.

#[global] Instance exact_match_dec arg_types entry :
  Decision (exact_match arg_types entry).
Proof. unfold exact_match. apply _. Defined.

(** "scan the operator's overload list in registration order; the first
    entry [that matches] is selected" *)
Definition select (overloads : list ast.Overload)
    (arg_types : list type.Type_) : option ast.Overload :=
  snd <$> list_find (exact_match arg_types) overloads.

(** What resolution answers for the selected entry: its function type
    and an immediate holding its implementation. *)
Definition found (entry : ast.Overload) : type.Func * ir.Expr :=
  (entry.1, ir.Imm (ir.VFunc entry.2)).

(** "first lower every argument expression, left to right, in the order
    written, collecting their types and IR nodes" *)
Fixpoint lower_all (args : list ast.Expr)
  : ast.M (list (type.Type_ * ir.Expr)) :=
  match args with
  | [] => λ ctx, (ast.Returns [], ctx)
  | arg :: rest =>
      λ ctx,
        match ast.translate arg ctx with
        | (ast.Returns lowered, ctx1) =>
            match lower_all rest ctx1 with
            | (ast.Returns others, ctx2) =>
                (ast.Returns (lowered :: others), ctx2)
            | (ast.Throws e, ctx2) => (ast.Throws e, ctx2)
            | (ast.Undef u, ctx2) => (ast.Undef u, ctx2)
            end
        | (ast.Throws e, ctx1) => (ast.Throws e, ctx1)
        | (ast.Undef u, ctx1) => (ast.Undef u, ctx1)
        end
  end.

End rule.

(** ** Notions used to state further properties of the lowering *)

Module notion.

(** The expressions made of [Int] and [Float] literals and of calls whose
    callee is an [OperatorExpr]: the ones for which every [translate] and
    [translate_func] reached has a body that returns or throws. *)
Fixpoint supported (e : ast.Expr) : bool :=
  match e with
  | ast.Int _ _ | ast.Float _ _ => true
  | ast.Call _ (ast.OperatorExpr _ _) args => forallb supported args
  | _ => false
  end.

(** Every callee of a call node is an immediate that holds a function. *)
Fixpoint direct_calls (e : ir.Expr) : bool :=
  match e with
  | ir.Imm _ => true
  | ir.Call (ir.Imm (ir.VFunc _)) args => forallb direct_calls args
  | ir.Call _ _ => false
  end.

(** The number of nodes of an IR expression. *)
Fixpoint ir_nodes (e : ir.Expr) : nat :=
  match e with
  | ir.Imm _ => 1
  | ir.Call func args => S (ir_nodes func + list_sum (map ir_nodes args))
  end.

(** The number of nodes of an expression. *)
Fixpoint nodes (e : ast.Expr) : nat :=
  match e with
  | ast.Call _ func args => S (nodes func + list_sum (map nodes args))
  | _ => 1
  end.


(** The parameter types of [entry] have, one by one, the structure of
    [arg_types]. *)
Definition shape_match (arg_types : list type.Type_)
    (entry : ast.Overload) : Prop :=
  map type.shape (type.get_args entry.1) = map type.shape arg_types.

(** The context [Context::Context()] constructs. *)
Definition fresh : ast.Context :=
  match ast.Context_new with
  | ast.Returns ctx => ctx
  | _ => ast.mkContext type.empty []
  end.

End notion.

(** ** The debug dump as text, and its outline *)

Module dump.









Section Outlines.

Variable show_pos : pos.Range → string.
Variable show_double : double → string.





End Outlines.

End dump.

(** * Properties *)

(** ** Interning in the type registry *)

Section Interning.
Import type.

(** Induction over type objects that also covers the parameters of a
    function type. *)
Lemma Type_nested_ind (P : Type_ → Prop) :
  P Int → P Bool → P Float →
  (∀ id args ret, Forall P args → P ret → P (Fn id args ret)) →
  ∀ t, P t.
Proof.
  intros HInt HBool HFloat HFn.
  fix IH 1. intros [ | | | id args ret]; try assumption.
  apply HFn; [ | apply IH].
  induction args as [ | a args IHargs]; constructor; [apply IH | exact IHargs].
Qed.

Lemma interned_extends reg reg' t :
  extends reg reg' → interned reg t → interned reg' t.
Proof.
  intros Hext. destruct t as [ | | | id args ret]; simpl; try done.
  intros Hl. eapply prefix_lookup_Some; eauto.
Qed.

(** Two objects of one registry at the same address are one object. *)
Lemma interned_addr_inj reg a b :
  interned reg a → interned reg b → addr a = addr b → a = b.
Proof.
  destruct a, b; simpl; try done.
  intros Ha Hb [= ->]. rewrite Ha in Hb. by injection Hb as -> ->.
Qed.

Lemma interned_addrs_inj reg (l k : list Type_) :
  Forall (interned reg) l → Forall (interned reg) k →
  map addr l = map addr k → l = k.
Proof.
  intros Hl. revert k. induction Hl as [ | a l Ha Hl IH]; intros [ | b k] Hk Heq;
    simpl in *; try done.
  inversion Hk; subst. injection Heq as Hab Hrest.
  f_equal; [by eapply interned_addr_inj | by apply IH].
Qed.

(** In a well-formed registry, equal structure forces equal address. *)
Lemma shape_addr reg :
  wf reg → ∀ a, interned reg a → ∀ b, interned reg b →
  shape a = shape b → addr a = addr b.
Proof.
  intros Hwf a. induction a as [ | | | i aa ra IHargs IHret] using Type_nested_ind;
    intros Ha [ | | | j ab rb] Hb Hs; simpl in *; try done.
  injection Hs as Hsa Hsr.
  destruct (wf_closed _ Hwf _ _ Ha) as [Haa Hra].
  destruct (wf_closed _ Hwf _ _ Hb) as [Hab Hrb]. simpl in *.
  assert (map addr aa = map addr ab) as Hargs.
  { clear Ha Hb. revert ab Hab Hsa.
    induction IHargs as [ | x aa Hx _ IH]; intros [ | y ab] Hab Hsa;
      simpl in *; try done.
    inversion Haa; subst. inversion Hab; subst. injection Hsa as Hxy Hrest.
    f_equal; [by apply Hx | by apply IH]. }
  assert (addr ra = addr rb) as Hret by (by apply IHret).
  f_equal. eapply (wf_unique _ Hwf); [exact Ha | exact Hb | ].
  split; simpl; congruence.
Qed.

Lemma wf_empty : wf empty.
Proof. split; intros *; simpl; by rewrite ?lookup_nil. Qed.

Lemma get_func_extends args ret reg :
  extends reg (get_func args ret reg).2.
Proof.
  unfold get_func, extends.
  destruct (list_find _ _) as [[i f] | ]; simpl; [done | by apply prefix_app_r].
Qed.

(** The object handed out sits in the registry, at the slot it names. *)
Lemma get_func_lookup args ret reg :
  wf reg →
  funcs (get_func args ret reg).2 !! func_id (get_func args ret reg).1
  = Some (get_func args ret reg).1.
Proof.
  intros Hwf. unfold get_func.
  destruct (list_find _ _) as [[i f] | ] eqn:Hfind; simpl.
  - apply list_find_Some in Hfind as (Hi & _ & _).
    by rewrite (wf_id _ Hwf _ _ Hi).
  - by rewrite lookup_app_r, Nat.sub_diag.
Qed.

Lemma get_func_same_sig args ret reg :
  same_sig args ret (get_func args ret reg).1.
Proof.
  unfold get_func.
  destruct (list_find _ _) as [[i f] | ] eqn:Hfind; simpl.
  - by apply list_find_Some in Hfind as (_ & Hsig & _).
  - by split.
Qed.

Lemma get_func_wf args ret reg :
  wf reg → Forall (interned reg) args → interned reg ret →
  wf (get_func args ret reg).2.
Proof.
  intros Hwf Hargs Hret. unfold get_func.
  destruct (list_find _ _) as [[i f] | ] eqn:Hfind; simpl; [done | ].
  apply list_find_None in Hfind.
  set (new := mkFunc (length (funcs reg)) args ret).
  assert (extends reg (mkRegistry (funcs reg ++ [new]))) as Hext
    by (by apply prefix_app_r).
  assert (∀ i f, (funcs reg ++ [new]) !! i = Some f →
            funcs reg !! i = Some f ∨ (i = length (funcs reg) ∧ f = new))
    as Hcases.
  { intros i f Hi. apply lookup_app_Some in Hi as [Hi | [Hge Hi]]; [by left | ].
    right. apply list_lookup_singleton_Some in Hi as [Hi ->].
    split; [lia | done]. }
  split; simpl.
  - intros i f Hi. destruct (Hcases _ _ Hi) as [Hold | [-> ->]];
      [by apply (wf_id _ Hwf) | done].
  - intros i f Hi. destruct (Hcases _ _ Hi) as [Hold | [-> ->]]; simpl.
    + destruct (wf_closed _ Hwf _ _ Hold) as [Ha Hr]. split.
      * eapply Forall_impl; [exact Ha | ].
        intros t. by apply interned_extends.
      * by eapply interned_extends.
    + split.
      * eapply Forall_impl; [exact Hargs | ].
        intros t. by apply interned_extends.
      * by eapply interned_extends.
  - intros i j f g Hi Hj Hsig.
    destruct (Hcases _ _ Hi) as [Hfold | [-> ->]];
      destruct (Hcases _ _ Hj) as [Hgold | [-> ->]]; simpl in *.
    + by eapply (wf_unique _ Hwf).
    + exfalso. rewrite Forall_forall in Hfind.
      apply (Hfind f); [by eapply list_elem_of_lookup_2 | ].
      destruct Hsig as [Ha Hr]. simpl in *. by split.
    + exfalso. rewrite Forall_forall in Hfind.
      apply (Hfind g); [by eapply list_elem_of_lookup_2 | done].
    + done.
Qed.

Lemma reachable_wf reg : reachable reg → wf reg.
Proof.
  induction 1 as [ | reg args ret _ IH Hargs Hret];
    [apply wf_empty | by apply get_func_wf].
Qed.

(** A request whose arguments are the objects of the signature of an
    object already in the registry gets that object, and the registry is
    left as it is. *)
Lemma get_func_hit reg f args ret :
  wf reg → funcs reg !! func_id f = Some f → same_sig args ret f →
  get_func args ret reg = (f, reg).
Proof.
  intros Hwf Hf Hsig. unfold get_func.
  destruct (list_find _ _) as [[i g] | ] eqn:Hfind.
  - apply list_find_Some in Hfind as (Hi & Hg & _).
    assert (func_id f = i) as <-.
    { eapply (wf_unique _ Hwf); [exact Hf | exact Hi | ].
      destruct Hsig as [Ha Hr], Hg as [Ha' Hr']. split; congruence. }
    rewrite Hf in Hi. by injection Hi as ->.
  - apply list_find_None in Hfind. rewrite Forall_forall in Hfind.
    exfalso. apply (Hfind f); [by eapply list_elem_of_lookup_2 | done].
Qed.

(** The object handed out has the signature asked for and is an object of
    the registry the request leaves. *)
Lemma get_func_signature args ret reg :
  wf reg → Forall (interned reg) args → interned reg ret →
  get_args (get_func args ret reg).1 = args
  ∧ get_ret (get_func args ret reg).1 = ret
  ∧ interned (get_func args ret reg).2 (upcast (get_func args ret reg).1).
Proof.
  intros Hwf Hargs Hret.
  pose proof (get_func_lookup args ret reg Hwf) as Hlookup.
  assert (get_args (get_func args ret reg).1 = args
          ∧ get_ret (get_func args ret reg).1 = ret) as [Ha Hr].
  { unfold get_func.
    destruct (list_find _ _) as [[i f] | ] eqn:Hfind; simpl; [ | done].
    apply list_find_Some in Hfind as (Hi & [Ha Hr] & _).
    destruct (wf_closed _ Hwf _ _ Hi) as [Hfa Hfr]. split.
    - by apply (interned_addrs_inj reg).
    - by apply (interned_addr_inj reg). }
  split; [done | split; [done | ]].
  unfold upcast. simpl.
  by destruct (get_func args ret reg).1.
Qed.

End Interning.

(** C5.  Requests to the type registry with equal arguments yield the same
    instance: [get_int], [get_bool] and [get_float] each hand out one object
    whatever the state of the registry, and a [get_func] request whose
    parameters and return type are, element by element, the objects of an
    earlier request yields the object of that earlier request, however the
    registry has grown in between, and leaves the registry as it is.  As a
    consequence two objects of the registry have the same address exactly
    when they have the same structure.  The object a [get_func] request
    yields has the parameters and the return type asked for. *)
Theorem registry_interning (reg : type.Registry) :
  type.reachable reg →
  (∀ reg' : type.Registry,
      type.get_int reg' = type.get_int reg
      ∧ type.get_bool reg' = type.get_bool reg
      ∧ type.get_float reg' = type.get_float reg)
  ∧ (∀ args ret reg' args' ret',
      Forall (type.interned reg) args → type.interned reg ret →
      type.reachable reg' →
      type.extends (type.get_func args ret reg).2 reg' →
      map type.addr args' = map type.addr args →
      type.addr ret' = type.addr ret →
      type.get_func args' ret' reg' = ((type.get_func args ret reg).1, reg'))
  ∧ (∀ a b, type.interned reg a → type.interned reg b →
      (type.addr a = type.addr b ↔ type.shape a = type.shape b))
  ∧ (∀ args ret,
      Forall (type.interned reg) args → type.interned reg ret →
      type.get_args (type.get_func args ret reg).1 = args
      ∧ type.get_ret (type.get_func args ret reg).1 = ret
      ∧ type.interned (type.get_func args ret reg).2
          (type.upcast (type.get_func args ret reg).1)).
Proof.
  intros Hreach. pose proof (reachable_wf _ Hreach) as Hwf.
  split; [done | split; [ | split]];
    [ | | intros args ret; exact (get_func_signature args ret reg Hwf)].
  - intros args ret reg' args' ret' Hargs Hret Hreach' Hext Ha Hr.
    apply get_func_hit.
    + by apply reachable_wf.
    + exact (prefix_lookup_Some _ _ _ _ (get_func_lookup args ret reg Hwf) Hext).
    + destruct (get_func_same_sig args ret reg) as [Ha0 Hr0].
      split; congruence.
  - intros a b Ha Hb. split.
    + intros Haddr. by rewrite (interned_addr_inj reg a b).
    + exact (shape_addr reg Hwf a Ha b Hb).
Qed.

(** The first request for (int, int) -> int allocates slot 0; asking again
    after (float, float) -> float has been interned yields slot 0 again. *)
Lemma registry_interning_witness :
  let reg1 := (type.get_func [type.Int; type.Int] type.Int type.empty).2 in
  let reg2 := (type.get_func [type.Float; type.Float] type.Float reg1).2 in
  type.get_func [type.Int; type.Int] type.Int reg2
  = (type.mkFunc 0 [type.Int; type.Int] type.Int, reg2).
Proof.
  intros reg1 reg2.
  refine (proj1 (proj2 (registry_interning type.empty type.reachable_empty))
            [type.Int; type.Int] type.Int reg2 [type.Int; type.Int] type.Int
            _ _ _ _ eq_refl eq_refl).
  - repeat constructor.
  - exact I.
  - apply (type.reachable_get_func reg1 [type.Float; type.Float] type.Float).
    + apply (type.reachable_get_func type.empty [type.Int; type.Int] type.Int).
      * apply type.reachable_empty.
      * repeat constructor.
      * exact I.
    + repeat constructor.
    + exact I.
  - apply get_func_extends.
Defined.

(** ** Overload resolution *)

Section Resolution.
Import ast.

Lemma same_addrs_Forall2 (l k : list type.Type_) :
  map type.addr l = map type.addr k
  ↔ Forall2 (λ param arg, type.addr param = type.addr arg) l k.
Proof.
  revert k. induction l as [ | a l IH]; intros [ | b k]; simpl; split;
    try done; try (by inversion 1).
  - intros [= Hab Hrest]. constructor; [done | by apply IH].
  - inversion 1; subst. f_equal; [done | by apply IH].
Qed.

Lemma exact_match_addrs arg_types (entry : Overload) :
  rule.exact_match arg_types entry
  ↔ map type.addr (type.get_args entry.1) = map type.addr arg_types.
Proof.
  unfold rule.exact_match. rewrite <- same_addrs_Forall2. split.
  - by intros [_ ?].
  - intros Heq. split; [ | done].
    apply (f_equal length) in Heq. by rewrite !length_map in Heq.
Qed.

(** The flag left by the inner loop, started at index [i] with the flag
    at [matched], when the two vectors have the same size. *)
Lemma compare_from args expected_args k :
  ∀ i matched,
    i + k = length args → length args = length expected_args →
    foldl (compare_at args expected_args) (Returns matched) (seq i k)
    = Returns (matched
               && bool_decide (map type.addr (drop i args)
                               = map type.addr (drop i expected_args))).
Proof.
  induction k as [ | k IH]; intros i matched Hik Hlen; simpl.
  - rewrite !drop_ge by lia. simpl. by rewrite andb_true_r.
  - destruct (lookup_lt_is_Some_2 args i) as [a Ha]; [lia | ].
    destruct (lookup_lt_is_Some_2 expected_args i) as [e He]; [lia | ].
    rewrite Ha, He, IH by lia.
    rewrite (drop_S _ _ _ Ha), (drop_S _ _ _ He). simpl. f_equal.
    destruct (decide (type.addr a ≠ type.addr e)) as [Hne | Heq].
    + simpl. symmetry. apply andb_false_intro2.
      apply bool_decide_eq_false_2. by intros [= ? _].
    + apply dec_stable in Heq. f_equal. apply bool_decide_ext.
      split; [intros Hrest; by rewrite Heq, Hrest | by intros [= _ ?]].
Qed.

Lemma compare_all_same_size args expected_args :
  length args = length expected_args →
  compare_all args expected_args (length expected_args)
  = Returns (bool_decide (map type.addr args = map type.addr expected_args)).
Proof.
  intros Hlen. unfold compare_all.
  by rewrite compare_from by lia.
Qed.

(** The loop of [OperatorExpr::translate_func] computes the selection of
    the resolution rule. *)
Lemma scan_select overloads expected_args :
  scan overloads expected_args (length expected_args)
  = Returns (rule.found <$> rule.select overloads expected_args).
Proof.
  unfold rule.select.
  induction overloads as [ | [ty func] rest IH]; [done | ].
  cbn [scan list_find]. rewrite IH.
  destruct (decide (length (type.get_args ty) ≠ length expected_args))
    as [Hne | Heq].
  - rewrite decide_False by (by intros [? _]).
    by rewrite <- !option_fmap_compose.
  - apply dec_stable in Heq. rewrite compare_all_same_size by done.
    cbn [bind]. case_bool_decide as Haddr.
    + by rewrite decide_True by (by apply exact_match_addrs).
    + rewrite decide_False by (by rewrite exact_match_addrs).
      by rewrite <- !option_fmap_compose.
Qed.

End Resolution.

Section ResolutionFacts.
Import ast.

(** The selection of the resolution rule is the entry of least index
    among those that match. *)
Lemma select_first overloads arg_types entry :
  rule.select overloads arg_types = Some entry
  ↔ ∃ i, overloads !! i = Some entry
      ∧ rule.exact_match arg_types entry
      ∧ ∀ j other, overloads !! j = Some other → j < i →
          ¬ rule.exact_match arg_types other.
Proof.
  unfold rule.select. rewrite fmap_Some. split.
  - intros [[i x] [Hfind ->]]. exists i. simpl.
    by apply list_find_Some in Hfind.
  - intros [i Hi]. exists (i, entry). split; [ | done].
    by apply list_find_Some.
Qed.

Lemma select_none overloads arg_types :
  rule.select overloads arg_types = None
  ↔ Forall (λ entry, ¬ rule.exact_match arg_types entry) overloads.
Proof. unfold rule.select. by rewrite fmap_None, list_find_None. Qed.

(** [OperatorExpr::translate_func] in terms of the resolution rule. *)
Lemma translate_func_select ctx pos op expected_args :
  translate_func (OperatorExpr pos op) expected_args ctx
  = match ops ctx !! index op with
    | Some overloads =>
        match rule.select overloads expected_args with
        | Some entry => (Returns (rule.found entry), ctx)
        | None => (Throws (TODO op expected_args pos), ctx)
        end
    | None => (Undef OutOfRange, ctx)
    end.
Proof.
  cbn [translate_func]. unfold OperatorExpr_translate_func.
  destruct (ops ctx !! index op) as [overloads | ]; [ | done].
  rewrite scan_select. by destruct (rule.select _ _).
Qed.

Lemma index_lt_NumOps op : index op < NumOps.
Proof. unfold NumOps. destruct op; simpl; lia. Qed.

Lemma index_inj op op' : index op = index op' → op = op'.
Proof. destruct op, op'; simpl; intros H; try done; discriminate H. Qed.

End ResolutionFacts.

(** C2.  Resolving an [OperatorExpr] as a callable goes through the
    overload list of its operator in registration order and answers with
    the first entry whose parameter types are as many as the argument types
    and are, one by one, the same objects; the answer is the entry's
    function type and an immediate holding its implementation.  In a
    freshly constructed context, [Add] with (int, int) selects [IAdd] with
    return type int, and with (float, float) selects [FAdd] with return
    type float. *)
Theorem operator_resolution_first_match :
  (∀ ctx pos op expected_args,
      ast.translate_func (ast.OperatorExpr pos op) expected_args ctx
      = match ast.ops ctx !! ast.index op with
        | Some overloads =>
            match rule.select overloads expected_args with
            | Some entry =>
                (ast.Returns (entry.1, ir.Imm (ir.VFunc entry.2)), ctx)
            | None => (ast.Throws (ast.TODO op expected_args pos), ctx)
            end
        | None => (ast.Undef ast.OutOfRange, ctx)
        end)
  ∧ (∀ overloads expected_args entry,
      rule.select overloads expected_args = Some entry
      ↔ ∃ i, overloads !! i = Some entry
          ∧ (length (type.get_args entry.1) = length expected_args
             ∧ Forall2 (λ param arg, type.addr param = type.addr arg)
                 (type.get_args entry.1) expected_args)
          ∧ ∀ j other, overloads !! j = Some other → j < i →
              ¬ rule.exact_match expected_args other)
  ∧ ∃ ctx, ast.Context_new = ast.Returns ctx
      ∧ ∀ pos,
          let int_ty := type.get_int (ast.ty ctx) in
          let float_ty := type.get_float (ast.ty ctx) in
          (∃ iadd_ty,
              ast.translate_func (ast.OperatorExpr pos ast.Add)
                [int_ty; int_ty] ctx
              = (ast.Returns (iadd_ty, ir.Imm (ir.VFunc ir.IAdd)), ctx)
              ∧ type.get_ret iadd_ty = int_ty)
          ∧ (∃ fadd_ty,
              ast.translate_func (ast.OperatorExpr pos ast.Add)
                [float_ty; float_ty] ctx
              = (ast.Returns (fadd_ty, ir.Imm (ir.VFunc ir.FAdd)), ctx)
              ∧ type.get_ret fadd_ty = float_ty).
Proof.
  split; [ | split].
  - intros ctx pos op expected_args. apply translate_func_select.
  - intros overloads expected_args entry. apply select_first.
  - eexists. split; [reflexivity | ].
    intros pos. split; eexists; split; reflexivity.
Qed.

(** With the two overloads of [Add], (float, float) selects the second
    entry: it matches and the first one does not. *)
Lemma operator_resolution_first_match_witness :
  let iadd := (type.mkFunc 0 [type.Int; type.Int] type.Int, ir.IAdd) in
  let fadd := (type.mkFunc 1 [type.Float; type.Float] type.Float, ir.FAdd) in
  rule.select [iadd; fadd] [type.Float; type.Float] = Some fadd.
Proof.
  intros iadd fadd.
  apply (proj1 (proj2 operator_resolution_first_match)).
  exists 1. split; [reflexivity | ].
  split; [split; [reflexivity | repeat constructor] | ].
  intros j other Hj Hlt. destruct j as [ | j]; [ | lia].
  injection Hj as <-. intros [_ Hall]. inversion Hall as [ | ? ? ? ? Hhead _].
  discriminate Hhead.
Defined.

(** C3.  When no entry of the operator's overload list matches the argument
    types exactly, resolving the [OperatorExpr] as a callable fails with
    [NoMatchingOverload] carrying the operator, the argument types and the
    span; an answer, when there is one, is always an entry of the list that
    matches exactly.  In a freshly constructed context, [Add] with
    (int, float) fails with [NoMatchingOverload]. *)
Theorem operator_resolution_no_match :
  (∀ ctx pos op expected_args overloads,
      ast.ops ctx !! ast.index op = Some overloads →
      Forall (λ entry, ¬ rule.exact_match expected_args entry) overloads →
      ast.translate_func (ast.OperatorExpr pos op) expected_args ctx
      = (ast.Throws (ast.NoMatchingOverload op expected_args pos), ctx))
  ∧ (∀ ctx pos op expected_args overloads func_type func_expr ctx',
      ast.ops ctx !! ast.index op = Some overloads →
      ast.translate_func (ast.OperatorExpr pos op) expected_args ctx
      = (ast.Returns (func_type, func_expr), ctx') →
      ∃ func, (func_type, func) ∈ overloads
        ∧ rule.exact_match expected_args (func_type, func)
        ∧ func_expr = ir.Imm (ir.VFunc func))
  ∧ ∃ ctx, ast.Context_new = ast.Returns ctx
      ∧ ∀ pos,
          let int_ty := type.get_int (ast.ty ctx) in
          let float_ty := type.get_float (ast.ty ctx) in
          ast.translate_func (ast.OperatorExpr pos ast.Add)
            [int_ty; float_ty] ctx
          = (ast.Throws (ast.NoMatchingOverload ast.Add [int_ty; float_ty] pos),
             ctx).
Proof.
  split; [ | split].
  - intros ctx pos op expected_args overloads Hops Hnone.
    rewrite translate_func_select, Hops.
    by rewrite (proj2 (select_none overloads expected_args) Hnone).
  - intros ctx pos op expected_args overloads func_type func_expr ctx' Hops.
    rewrite translate_func_select, Hops.
    destruct (rule.select overloads expected_args) as [[fty func] | ] eqn:Hsel;
      [ | done].
    intros [= <- <- <-]. apply select_first in Hsel as (i & Hi & Hmatch & _).
    exists func. split; [by eapply list_elem_of_lookup_2 | done].
  - eexists. split; [reflexivity | ]. intros pos. reflexivity.
Qed.

(** With an empty table [Sub] finds nothing for (int, int). *)
Lemma operator_resolution_no_match_witness :
  let ctx := ast.mkContext type.empty (replicate ast.NumOps []) in
  ast.translate_func (ast.OperatorExpr (pos.mkRange 0 1) ast.Sub)
    [type.Int; type.Int] ctx
  = (ast.Throws
       (ast.NoMatchingOverload ast.Sub [type.Int; type.Int] (pos.mkRange 0 1)),
     ctx).
Proof.
  intros ctx.
  apply (proj1 operator_resolution_no_match ctx _ _ _ []);
    [reflexivity | constructor].
Defined.

(** C9.  The operator table of a fresh context has [NumOps] lists, one for
    each operator, so [ops[op]] is within bounds; an entry whose number of
    parameters differs from the number of argument types is skipped without
    any of its parameters being indexed; and the comparisons of the
    remaining entries index both vectors within bounds: resolution never
    runs into an access past the end, nor into any other undefined
    behaviour. *)
Theorem operator_resolution_in_bounds :
  (∃ ctx, ast.Context_new = ast.Returns ctx
      ∧ length (ast.ops ctx) = ast.NumOps
      ∧ ∀ op, is_Some (ast.ops ctx !! ast.index op))
  ∧ (∀ op, ast.index op < ast.NumOps)
  ∧ (∀ ty func rest expected_args expected_num_args,
      length (type.get_args ty) ≠ expected_num_args →
      ast.scan ((ty, func) :: rest) expected_args expected_num_args
      = ast.scan rest expected_args expected_num_args)
  ∧ (∀ args expected_args u,
      length args = length expected_args →
      ast.compare_all args expected_args (length expected_args) ≠ ast.Undef u)
  ∧ (∀ overloads expected_args u,
      ast.scan overloads expected_args (length expected_args) ≠ ast.Undef u)
  ∧ (∀ ctx pos op expected_args u,
      length (ast.ops ctx) = ast.NumOps →
      (ast.translate_func (ast.OperatorExpr pos op) expected_args ctx).1
      ≠ ast.Undef u).
Proof.
  split; [ | split; [ | split; [ | split; [ | split]]]].
  - eexists. split; [reflexivity | ]. split; [reflexivity | ].
    intros op. apply lookup_lt_is_Some_2.
    exact (index_lt_NumOps op).
  - exact index_lt_NumOps.
  - intros ty func rest expected_args n Hne. cbn [ast.scan].
    by rewrite decide_True.
  - intros args expected_args u Hlen.
    by rewrite compare_all_same_size.
  - intros overloads expected_args u. by rewrite scan_select.
  - intros ctx pos op expected_args u Hlen.
    rewrite translate_func_select.
    destruct (lookup_lt_is_Some_2 (ast.ops ctx) (ast.index op)) as [l ->].
    { rewrite Hlen. apply index_lt_NumOps. }
    by destruct (rule.select l expected_args).
Qed.

(** A table of [NumOps] empty lists: resolving [BackwardShiftAssign], the
    last operator, stays within bounds. *)
Lemma operator_resolution_in_bounds_witness :
  (ast.translate_func
     (ast.OperatorExpr (pos.mkRange 0 1) ast.BackwardShiftAssign) [type.Int]
     (ast.mkContext type.empty (replicate ast.NumOps []))).1
  ≠ ast.Undef ast.OutOfRange.
Proof.
  apply (proj2 (proj2 (proj2 (proj2 (proj2 operator_resolution_in_bounds))))).
  reflexivity.
Defined.

(** C10.  In a fresh context the overload list of [Add] is
    (int, int) -> int with [IAdd] followed by (float, float) -> float with
    [FAdd], the list of [Equal] is the single entry (int, int) -> bool with
    [IEq], and the list of every other operator is empty, so that resolving
    such an operator matches no entry, whatever the argument types. *)
Theorem fresh_context_overloads :
  ∃ ctx, ast.Context_new = ast.Returns ctx
    ∧ (let int_ty := type.get_int (ast.ty ctx) in
       let bool_ty := type.get_bool (ast.ty ctx) in
       let float_ty := type.get_float (ast.ty ctx) in
       ∃ iadd_ty fadd_ty ieq_ty,
         ast.ops ctx !! ast.index ast.Add
         = Some [(iadd_ty, ir.IAdd); (fadd_ty, ir.FAdd)]
         ∧ ast.ops ctx !! ast.index ast.Equal = Some [(ieq_ty, ir.IEq)]
         ∧ type.get_args iadd_ty = [int_ty; int_ty]
         ∧ type.get_ret iadd_ty = int_ty
         ∧ type.get_args fadd_ty = [float_ty; float_ty]
         ∧ type.get_ret fadd_ty = float_ty
         ∧ type.get_args ieq_ty = [int_ty; int_ty]
         ∧ type.get_ret ieq_ty = bool_ty)
    ∧ (∀ op, op ≠ ast.Add → op ≠ ast.Equal →
         ast.ops ctx !! ast.index op = Some [])
    ∧ (∀ op pos expected_args, op ≠ ast.Add → op ≠ ast.Equal →
         rule.select [] expected_args = None
         ∧ ast.translate_func (ast.OperatorExpr pos op) expected_args ctx
           = (ast.Throws (ast.TODO op expected_args pos), ctx)).
Proof.
  eexists. split; [reflexivity | ].
  split; [ | split].
  - do 3 eexists. repeat split; reflexivity.
  - intros op HAdd HEqual. by destruct op.
  - intros op pos expected_args HAdd HEqual. split; [done | ].
    rewrite translate_func_select. by destruct op.
Qed.

(** [Sub] is neither [Add] nor [Equal]: its list is empty. *)
Lemma fresh_context_overloads_witness :
  ∃ ctx, ast.Context_new = ast.Returns ctx
    ∧ ast.ops ctx !! ast.index ast.Sub = Some [].
Proof.
  destruct fresh_context_overloads as (ctx & Hnew & _ & Hempty & _).
  exists ctx. split; [exact Hnew | ].
  apply Hempty; discriminate.
Defined.

(** ** Lowering of expressions *)

Section ExpressionFacts.
Import ast.

(** Induction over expressions that also covers the arguments of a
    call. *)
Lemma Expr_nested_ind (P : Expr → Prop) :
  (∀ pos name, P (Identifier pos name)) →
  (∀ pos value, P (Int pos value)) →
  (∀ pos value, P (Float pos value)) →
  (∀ pos value, P (String pos value)) →
  (∀ pos func args, P func → Forall P args → P (Call pos func args)) →
  (∀ pos op, P (OperatorExpr pos op)) →
  ∀ e, P e.
Proof.
  intros HId HInt HFloat HString HCall HOp.
  fix IH 1. intros [pos name | pos v | pos v | pos v | pos func args | pos op];
    [apply HId | apply HInt | apply HFloat | apply HString | | apply HOp].
  apply HCall; [apply IH | ].
  induction args as [ | a args IHargs]; constructor; [apply IH | exact IHargs].
Qed.

(** The loop with its two growing vectors collects what lowering the
    arguments one after the other yields. *)
Lemma translate_args_lower_all rest :
  ∀ args_type args_expr ctx,
    translate_args translate rest args_type args_expr ctx
    = match rule.lower_all rest ctx with
      | (Returns lowered, ctx') =>
          (Returns (args_type ++ map fst lowered,
                    args_expr ++ map snd lowered), ctx')
      | (Throws e, ctx') => (Throws e, ctx')
      | (Undef u, ctx') => (Undef u, ctx')
      end.
Proof.
  induction rest as [ | arg rest IH]; intros args_type args_expr ctx; simpl.
  - by rewrite !app_nil_r.
  - destruct (translate arg ctx) as [[[type expr] | e | u] ctx1]; try done.
    rewrite IH.
    destruct (rule.lower_all rest ctx1) as [[lowered | e | u] ctx2];
      try done.
    simpl. by rewrite <- !app_assoc.
Qed.

Lemma translate_Call pos func args ctx :
  translate (Call pos func args) ctx
  = match rule.lower_all args ctx with
    | (Returns lowered, ctx1) =>
        match translate_func func (map fst lowered) ctx1 with
        | (Returns (func_type, func_expr), ctx2) =>
            (Returns (type.get_ret func_type,
                      ir.Call func_expr (map snd lowered)), ctx2)
        | (Throws e, ctx2) => (Throws e, ctx2)
        | (Undef u, ctx2) => (Undef u, ctx2)
        end
    | (Throws e, ctx1) => (Throws e, ctx1)
    | (Undef u, ctx1) => (Undef u, ctx1)
    end.
Proof.
  cbn [translate]. rewrite translate_args_lower_all.
  by destruct (rule.lower_all args ctx) as [[lowered | e | u] ctx1].
Qed.

(** Lowering the arguments written before [arg], then [arg], then those
    written after it. *)
Lemma lower_all_app before arg after ctx :
  rule.lower_all (before ++ arg :: after) ctx
  = match rule.lower_all before ctx with
    | (Returns first, ctx1) =>
        match translate arg ctx1 with
        | (Returns lowered, ctx2) =>
            match rule.lower_all after ctx2 with
            | (Returns others, ctx3) =>
                (Returns (first ++ lowered :: others), ctx3)
            | (Throws e, ctx3) => (Throws e, ctx3)
            | (Undef u, ctx3) => (Undef u, ctx3)
            end
        | (Throws e, ctx2) => (Throws e, ctx2)
        | (Undef u, ctx2) => (Undef u, ctx2)
        end
    | (Throws e, ctx1) => (Throws e, ctx1)
    | (Undef u, ctx1) => (Undef u, ctx1)
    end.
Proof.
  revert ctx. induction before as [ | b before IH]; intros ctx; simpl.
  - by destruct (translate arg ctx) as [[lowered | e | u] ctx2].
  - destruct (translate b ctx) as [[lowered | e | u] ctx1]; try done.
    rewrite IH.
    destruct (rule.lower_all before ctx1) as [[first | e | u] ctx2];
      try done.
    destruct (translate arg ctx2) as [[lowered' | e | u] ctx3]; try done.
    by destruct (rule.lower_all after ctx3) as [[others | e | u] ctx4].
Qed.

Lemma translate_func_ctx e expected_args ctx :
  (translate_func e expected_args ctx).2 = ctx.
Proof.
  destruct e as [ | | | | | pos op]; try done.
  rewrite translate_func_select.
  destruct (ops ctx !! index op) as [overloads | ]; [ | done].
  by destruct (rule.select overloads expected_args).
Qed.

(** Lowering an expression leaves the context as it found it. *)
Lemma translate_ctx e : ∀ ctx, (translate e ctx).2 = ctx.
Proof.
  induction e as [ | | | | pos func args _ IHargs | ] using Expr_nested_ind;
    intros ctx; try done.
  rewrite translate_Call.
  assert (∀ c, (rule.lower_all args c).2 = c) as Hall.
  { induction IHargs as [ | a args Ha _ IH]; intros c; simpl; [done | ].
    specialize (Ha c). destruct (translate a c) as [[lowered | e | u] c1];
      simpl in Ha; subst; try done.
    specialize (IH c).
    by destruct (rule.lower_all args c) as [[others | e | u] c2]. }
  specialize (Hall ctx).
  destruct (rule.lower_all args ctx) as [[lowered | e | u] ctx1];
    simpl in Hall; subst; try done.
  pose proof (translate_func_ctx func (map fst lowered) ctx) as Hfunc.
  by destruct (translate_func func (map fst lowered) ctx)
    as [[[func_type func_expr] | e | u] ctx2].
Qed.

End ExpressionFacts.

(** C1.  Lowering a [Call] first lowers the arguments one after the other
    in the order written, each in the context left by the one before it,
    collecting their types and IR nodes, and only then resolves the callee
    with [translate_func] on the collected types; the result is the return
    type of the function type the callee resolved to, with an [ir::Call]
    node holding the resolved callee and the argument nodes in the same
    order.  An argument that fails ends the lowering with its failure,
    whatever is written after it and whatever the callee is.  The callee is
    not lowered as an ordinary expression: a call of [Add] is lowered in a
    fresh context although [translate] on the operator itself has no
    defined behaviour. *)
Theorem call_lowering_two_phase :
  (∀ pos func args ctx,
      ast.translate (ast.Call pos func args) ctx
      = match rule.lower_all args ctx with
        | (ast.Returns lowered, ctx1) =>
            match ast.translate_func func (map fst lowered) ctx1 with
            | (ast.Returns (func_type, func_expr), ctx2) =>
                (ast.Returns (type.get_ret func_type,
                              ir.Call func_expr (map snd lowered)), ctx2)
            | (ast.Throws e, ctx2) => (ast.Throws e, ctx2)
            | (ast.Undef u, ctx2) => (ast.Undef u, ctx2)
            end
        | (ast.Throws e, ctx1) => (ast.Throws e, ctx1)
        | (ast.Undef u, ctx1) => (ast.Undef u, ctx1)
        end)
  ∧ (∀ before arg after ctx,
      rule.lower_all (before ++ arg :: after) ctx
      = match rule.lower_all before ctx with
        | (ast.Returns first, ctx1) =>
            match ast.translate arg ctx1 with
            | (ast.Returns lowered, ctx2) =>
                match rule.lower_all after ctx2 with
                | (ast.Returns others, ctx3) =>
                    (ast.Returns (first ++ lowered :: others), ctx3)
                | (ast.Throws e, ctx3) => (ast.Throws e, ctx3)
                | (ast.Undef u, ctx3) => (ast.Undef u, ctx3)
                end
            | (ast.Throws e, ctx2) => (ast.Throws e, ctx2)
            | (ast.Undef u, ctx2) => (ast.Undef u, ctx2)
            end
        | (ast.Throws e, ctx1) => (ast.Throws e, ctx1)
        | (ast.Undef u, ctx1) => (ast.Undef u, ctx1)
        end)
  ∧ (∀ pos func before arg after ctx first ctx1 ctx2 e,
      rule.lower_all before ctx = (ast.Returns first, ctx1) →
      ast.translate arg ctx1 = (ast.Throws e, ctx2) →
      ast.translate (ast.Call pos func (before ++ arg :: after)) ctx
      = (ast.Throws e, ctx2))
  ∧ (∀ pos func before arg after ctx first ctx1 ctx2 u,
      rule.lower_all before ctx = (ast.Returns first, ctx1) →
      ast.translate arg ctx1 = (ast.Undef u, ctx2) →
      ast.translate (ast.Call pos func (before ++ arg :: after)) ctx
      = (ast.Undef u, ctx2))
  ∧ ∃ ctx, ast.Context_new = ast.Returns ctx
      ∧ ∀ pos pos_op pos1 pos2 value1 value2,
          ast.translate (ast.OperatorExpr pos_op ast.Add) ctx
          = (ast.Undef ast.MissingReturn, ctx)
          ∧ ast.translate
              (ast.Call pos (ast.OperatorExpr pos_op ast.Add)
                 [ast.Int pos1 value1; ast.Int pos2 value2]) ctx
            = (ast.Returns
                 (type.get_int (ast.ty ctx),
                  ir.Call (ir.Imm (ir.VFunc ir.IAdd))
                    [ir.Imm (ir.VInt value1); ir.Imm (ir.VInt value2)]),
               ctx).
Proof.
  split; [exact translate_Call | ].
  split; [exact lower_all_app | ].
  split; [ | split].
  - intros pos func before arg after ctx first ctx1 ctx2 e Hbefore Harg.
    by rewrite translate_Call, lower_all_app, Hbefore, Harg.
  - intros pos func before arg after ctx first ctx1 ctx2 u Hbefore Harg.
    by rewrite translate_Call, lower_all_app, Hbefore, Harg.
  - eexists. split; [reflexivity | ]. intros. split; reflexivity.
Qed.

(** In [add(1, add(), 2.5)] the second argument finds no overload; the call
    fails with that error after the first argument has been lowered. *)
Lemma call_lowering_two_phase_witness :
  let span := pos.mkRange 0 1 in
  let ctx := ast.mkContext type.empty (replicate ast.NumOps []) in
  let inner := ast.Call span (ast.OperatorExpr span ast.Add) [] in
  ast.translate
    (ast.Call span (ast.OperatorExpr span ast.Add)
       ([ast.Int span 1] ++ inner :: [ast.Float span (S754_finite false 5 (-1))])) ctx
  = (ast.Throws (ast.NoMatchingOverload ast.Add [] span), ctx).
Proof.
  intros span ctx inner.
  apply (proj1 (proj2 (proj2 call_lowering_two_phase)) span
           (ast.OperatorExpr span ast.Add) [ast.Int span 1] inner
           [ast.Float span (S754_finite false 5 (-1))] ctx
           [(type.Int, ir.Imm (ir.VInt 1))] ctx ctx);
    reflexivity.
Defined.

(** C7.  Lowering an [Int] literal yields the registry's int type with an
    immediate holding the literal's value, and lowering a [Float] literal
    yields the registry's float type with an immediate holding the float
    value; both return in every context, leave the context as it is, and
    answer the same whatever the operator table holds. *)
Theorem literal_lowering :
  (∀ pos value ctx,
      ast.translate (ast.Int pos value) ctx
      = (ast.Returns (type.get_int (ast.ty ctx), ir.Imm (ir.VInt value)), ctx))
  ∧ (∀ pos value ctx,
      ast.translate (ast.Float pos value) ctx
      = (ast.Returns (type.get_float (ast.ty ctx), ir.Imm (ir.VFloat value)),
         ctx))
  ∧ (∀ reg, type.interned reg (type.get_int reg)
            ∧ type.interned reg (type.get_float reg)
            ∧ type.addr (type.get_int reg) = type.AInt
            ∧ type.addr (type.get_float reg) = type.AFloat)
  ∧ (∀ pos value registry ops ops',
      (ast.translate (ast.Int pos value) (ast.mkContext registry ops)).1
      = (ast.translate (ast.Int pos value) (ast.mkContext registry ops')).1)
  ∧ (∀ pos value registry ops ops',
      (ast.translate (ast.Float pos value) (ast.mkContext registry ops)).1
      = (ast.translate (ast.Float pos value) (ast.mkContext registry ops')).1).
Proof. repeat split. Qed.

(** ** Lowering of statements *)

(** C4 (the behaviour of the code).  [ExprStmt::translate] calls
    [expr->translate(ctx)] without looking at [expr]: for an [ExprStmt]
    whose expression is absent this is a call through a null pointer,
    whatever the continuation and the counter, and no node is produced.
    The debug dump of the same statement does handle the absent
    expression. *)
Theorem ExprStmt_empty_translate :
  (∀ translate_elsewhere pos end_ num_locals ctx,
      ast.translate_stmt translate_elsewhere (ast.ExprStmt pos None) end_
        num_locals ctx
      = (ast.Undef ast.NullDereference, ctx))
  ∧ (∀ show_pos show_double depth pos,
      ast.Stmt_debug_print show_pos show_double depth (ast.ExprStmt pos None)
      = [ast.indent depth +:+ show_pos pos
         +:+ " expression statement (empty)"]).
Proof. split; reflexivity. Qed.

Section StatementFacts.
Import ast.

Lemma new_frame_no_args n : ir.new_frame n [] = replicate n ir.VUnit.
Proof.
  unfold ir.new_frame. simpl. rewrite take_replicate. f_equal. lia.
Qed.

End StatementFacts.

(** C6 (amended).  When lowering the statement returns, [Stmt::run] has
    lowered it with the null continuation, which ends the function, and a
    counter of local slots that starts at zero, into the entry of a new
    function that takes no argument; it invokes that function on the given
    environment with no arguments, in a frame made for this invocation of as
    many unit slots as the lowering counted, and hands the value the
    invocation yields to [ir::print], after what was printed before.  When
    lowering fails with an error, [run] fails with that error: nothing is
    invoked and nothing is handed to [ir::print].  In both cases the context
    handed back is the one the lowering left, so that the next call runs
    against it. *)
Theorem run_single_statement translate_elsewhere walk s w :
  (∀ entry num_locals ctx',
      ast.translate_stmt translate_elsewhere s None 0 (ast.world_ctx w)
      = (ast.Returns (entry, num_locals), ctx') →
      let tmp := ir.mkFuncDef entry num_locals in
      let frame := replicate num_locals ir.VUnit in
      ir.invoke walk tmp (ast.world_env w) []
      = walk (ast.world_env w) frame entry
      ∧ ast.run translate_elsewhere walk s w
        = (ast.Returns (),
           ast.mkWorld ctx' (walk (ast.world_env w) frame entry).2
             (ast.printed w ++ [(walk (ast.world_env w) frame entry).1])))
  ∧ (∀ err ctx',
      ast.translate_stmt translate_elsewhere s None 0 (ast.world_ctx w)
      = (ast.Throws err, ctx') →
      ast.run translate_elsewhere walk s w
      = (ast.Throws err, ast.mkWorld ctx' (ast.world_env w) (ast.printed w))).
Proof.
  split.
  - intros entry num_locals ctx' Hlower tmp frame.
    assert (ir.invoke walk tmp (ast.world_env w) []
            = walk (ast.world_env w) frame entry) as Hinvoke.
    { unfold ir.invoke, tmp, frame. simpl ir.num_locals. simpl ir.entry.
      by rewrite new_frame_no_args. }
    split; [exact Hinvoke | ].
    unfold ast.run. simpl ir.num_locals. rewrite Hlower. fold tmp.
    rewrite Hinvoke. by destruct (walk (ast.world_env w) frame entry).
  - intros err ctx' Hlower. unfold ast.run. simpl ir.num_locals.
    by rewrite Hlower.
Qed.

(** Running [1 + 2;] in the constructed context, with a walk that answers
    with the number of slots of the frame it is given: the frame has none,
    and zero is printed after what was printed before. *)
Lemma run_single_statement_witness :
  let span := pos.mkRange 0 6 in
  let stmt :=
    ast.ExprStmt span
      (Some (ast.Call span (ast.OperatorExpr span ast.Add)
               [ast.Int span 1; ast.Int span 2])) in
  let undefined_elsewhere :=
    λ (_ : ast.Stmt) (_ : ast.StmtPtr) (_ : nat) (ctx : ast.Context),
      (ast.Undef (A := ast.StmtPtr * nat) ast.MissingReturn, ctx) in
  let count_slots :=
    λ (env : ir.Env) (frame : ir.Frame) (_ : option ir.Stmt),
      (ir.VInt (Z.of_nat (length frame)), frame :: env) in
  ast.run undefined_elsewhere count_slots stmt
    (ast.mkWorld notion.fresh [] [ir.VBool true])
  = (ast.Returns (),
     ast.mkWorld notion.fresh [[]] [ir.VBool true; ir.VInt 0]).
Proof.
  intros span stmt undefined_elsewhere count_slots.
  apply (proj1 (run_single_statement undefined_elsewhere count_slots stmt
                  (ast.mkWorld notion.fresh [] [ir.VBool true]))
           (Some (ir.ExprStmt
                    (ir.Call (ir.Imm (ir.VFunc ir.IAdd))
                       [ir.Imm (ir.VInt 1); ir.Imm (ir.VInt 2)]) None))
           0 notion.fresh).
  reflexivity.
Defined.

(** Running [1 + 2.5;]: no overload of [Add] takes (int, float), lowering
    fails, and [run] ends with that error without having invoked or printed
    anything. *)
Lemma run_failed_lowering_presents_nothing :
  let span := pos.mkRange 0 8 in
  let stmt :=
    ast.ExprStmt span
      (Some (ast.Call span (ast.OperatorExpr span ast.Add)
               [ast.Int span 1; ast.Float span (S754_finite false 5 (-1))])) in
  let undefined_elsewhere :=
    λ (_ : ast.Stmt) (_ : ast.StmtPtr) (_ : nat) (ctx : ast.Context),
      (ast.Undef (A := ast.StmtPtr * nat) ast.MissingReturn, ctx) in
  let count_slots :=
    λ (env : ir.Env) (frame : ir.Frame) (_ : option ir.Stmt),
      (ir.VInt (Z.of_nat (length frame)), frame :: env) in
  ast.run undefined_elsewhere count_slots stmt (ast.mkWorld notion.fresh [] [])
  = (ast.Throws (ast.NoMatchingOverload ast.Add [type.Int; type.Float] span),
     ast.mkWorld notion.fresh [] [])
  ∧ ast.printed
      (ast.run undefined_elsewhere count_slots stmt
         (ast.mkWorld notion.fresh [] [])).2 = [].
Proof. split; reflexivity. Qed.

(** ** The debug dump *)

Section DebugPrintFacts.
Import ast.
Variable show_pos : pos.Range → string.
Variable show_double : double → string.









End DebugPrintFacts.

Section TextFacts.






End TextFacts.




(** ** Worked examples *)

Section Examples.
Import ast.

Variable span : pos.Range.

(** [1 == 1 + 2] in a fresh context. *)
Example lower_equal_of_sum :
  ∃ ctx, Context_new = Returns ctx
    ∧ translate
        (Call span (OperatorExpr span Equal)
           [Int span 1;
            Call span (OperatorExpr span Add) [Int span 1; Int span 2]]) ctx
      = (Returns
           (type.Bool,
            ir.Call (ir.Imm (ir.VFunc ir.IEq))
              [ir.Imm (ir.VInt 1);
               ir.Call (ir.Imm (ir.VFunc ir.IAdd))
                 [ir.Imm (ir.VInt 1); ir.Imm (ir.VInt 2)]]), ctx).
Proof. eexists. split; reflexivity. Qed.

(** A string literal among the arguments: its [translate] has an empty
    body, and the call ends there, before [Sub] is looked up. *)
Example lower_call_with_string :
  ∃ ctx, Context_new = Returns ctx
    ∧ (translate
         (Call span (OperatorExpr span Sub)
            [Int span 1; String span "two"; Float span S754_nan]) ctx).1
      = Undef MissingReturn.
Proof. eexists. split; reflexivity. Qed.

(** Without the test on the sizes the comparison would read past the end of
    the shorter vector. *)
Example compare_all_past_the_end :
  compare_all [] [type.Int] 1 = Undef OutOfRange.
Proof. reflexivity. Qed.

(** Running [1 + 2;] with the walk that drops the values of expression
    statements prints unit and leaves context and environment as they
    were. *)
Example run_expression_statement translate_elsewhere apply :
  ∃ ctx, Context_new = Returns ctx
    ∧ run translate_elsewhere (ir.walk_statements apply)
        (ExprStmt span
           (Some (Call span (OperatorExpr span Add) [Int span 1; Int span 2])))
        (mkWorld ctx [] [])
      = (Returns (), mkWorld ctx [] [ir.VUnit]).
Proof. eexists. split; reflexivity. Qed.

(** The dump of [while (i == -2) if (c) break;] at depth one. *)
Example dump_while :
  Stmt_debug_print (λ _, "@") (λ _, "?") 1
    (While span
       (Call span (OperatorExpr span Equal) [Identifier span "i"; Int span (-2)])
       (If span (Identifier span "c") (Break span) None))
  = ["  @ while"; "    @ call"; "      @ operator(equal to)";
     "    args(2):"; "      @ identifier(i)"; "      @ integer(-2)";
     "  do"; "    @ if"; "      @ identifier(c)"; "    then";
     "      @ break"; "    end if"; "  end while"].
Proof. reflexivity. Qed.

End Examples.


(** * Further properties of the lowering *)

Section LoweringFacts.
Import ast.

(** Lowering a list of arguments returns exactly when each argument, on
    its own and in the same context, returns. *)
Lemma lower_all_Forall2 args ctx lowered ctx' :
  rule.lower_all args ctx = (Returns lowered, ctx')
  ↔ ctx' = ctx
    ∧ Forall2 (λ arg r, translate arg ctx = (Returns r, ctx)) args lowered.
Proof.
  split.
  - revert lowered. induction args as [ | arg args IH]; intros lowered; simpl.
    + intros [= <- <-]. by split.
    + pose proof (translate_ctx arg ctx) as Harg.
      destruct (translate arg ctx) as [[r | e | u] ctx1] eqn:Hfirst;
        simpl in Harg; subst; try done.
      destruct (rule.lower_all args ctx) as [[others | e | u] ctx2] eqn:Hrest;
        try done.
      intros [= <- <-]. destruct (IH others eq_refl) as [-> Hall].
      split; [done | by constructor].
  - intros [-> Hall]. induction Hall as [ | arg r args lowered Harg _ IH];
      simpl; [done | ].
    by rewrite Harg, IH.
Qed.

Lemma lower_all_ctx args : ∀ ctx, (rule.lower_all args ctx).2 = ctx.
Proof.
  induction args as [ | arg args IH]; intros ctx; simpl; [done | ].
  pose proof (translate_ctx arg ctx) as Harg.
  destruct (translate arg ctx) as [[r | e | u] ctx1]; simpl in Harg; subst;
    try done.
  specialize (IH ctx).
  by destruct (rule.lower_all args ctx) as [[others | e | u] ctx2].
Qed.

Lemma lower_all_length args ctx lowered ctx' :
  rule.lower_all args ctx = (Returns lowered, ctx') →
  length lowered = length args.
Proof.
  intros H. apply lower_all_Forall2 in H as [_ Hall].
  symmetry. by eapply Forall2_length.
Qed.

(** The outcome of a successful call, taken apart. *)
Lemma translate_Call_Returns pos func args ctx t ie ctx' :
  translate (Call pos func args) ctx = (Returns (t, ie), ctx')
  ↔ ctx' = ctx
    ∧ ∃ lowered func_type func_expr,
        Forall2 (λ arg r, translate arg ctx = (Returns r, ctx)) args lowered
        ∧ translate_func func (map fst lowered) ctx
          = (Returns (func_type, func_expr), ctx)
        ∧ t = type.get_ret func_type
        ∧ ie = ir.Call func_expr (map snd lowered).
Proof.
  rewrite translate_Call. split.
  - destruct (rule.lower_all args ctx) as [[lowered | e | u] ctx1] eqn:Hall;
      try done.
    apply lower_all_Forall2 in Hall as [-> Hall].
    pose proof (translate_func_ctx func (map fst lowered) ctx) as Hctx.
    destruct (translate_func func (map fst lowered) ctx)
      as [[[func_type func_expr] | e | u] ctx2] eqn:Hfunc; simpl in Hctx;
      subst; try done.
    intros [= <- <- <-]. split; [done | ].
    by exists lowered, func_type, func_expr.
  - intros [-> (lowered & func_type & func_expr & Hall & Hfunc & -> & ->)].
    rewrite (proj2 (lower_all_Forall2 args ctx lowered ctx)) by done.
    by rewrite Hfunc.
Qed.

End LoweringFacts.

(** X2.  A call lowers successfully exactly when each of its arguments, on
    its own and in the same context, lowers successfully and the callee
    resolves on the types of the arguments; the call node then holds the
    nodes of the arguments in the order written, one for each argument, and
    the type of the call is the return type the callee resolved to. *)
Theorem call_lowers_argumentwise pos func args ctx t ie ctx' :
  ast.translate (ast.Call pos func args) ctx = (ast.Returns (t, ie), ctx')
  ↔ ctx' = ctx
    ∧ ∃ lowered func_type func_expr,
        Forall2 (λ arg r, ast.translate arg ctx = (ast.Returns r, ctx))
          args lowered
        ∧ length lowered = length args
        ∧ ast.translate_func func (map fst lowered) ctx
          = (ast.Returns (func_type, func_expr), ctx)
        ∧ t = type.get_ret func_type
        ∧ ie = ir.Call func_expr (map snd lowered).
Proof.
  rewrite translate_Call_Returns. split.
  - intros [-> (lowered & func_type & func_expr & Hall & Hrest)].
    split; [done | ]. exists lowered, func_type, func_expr.
    split; [done | split; [ | done]].
    symmetry. by eapply Forall2_length.
  - intros [-> (lowered & func_type & func_expr & Hall & _ & Hrest)].
    split; [done | ]. by exists lowered, func_type, func_expr.
Qed.

Section OperatorCalls.
Import ast.

Lemma args_meet_params ctx args (lowered : list (type.Type_ * ir.Expr)) :
  Forall2 (λ arg r, translate arg ctx = (Returns r, ctx)) args lowered →
  ∀ params,
    Forall2 (λ param r, type.addr param = type.addr r.1) params lowered →
    Forall2
      (λ arg param, ∃ arg_type arg_expr,
          translate arg ctx = (Returns (arg_type, arg_expr), ctx)
          ∧ type.addr arg_type = type.addr param)
      args params.
Proof.
  induction 1 as [ | arg [t e] args lowered Harg _ IH]; intros params Hparams;
    inversion Hparams; subst; constructor; [ | by apply IH].
  by exists t, e.
Qed.

Lemma Forall2_map_r {A B C} (P : A → C → Prop) (f : B → C) l k :
  Forall2 P l (map f k) ↔ Forall2 (λ a b, P a (f b)) l k.
Proof.
  revert l. induction k as [ | b k IH]; intros [ | a l]; simpl; split;
    try (by inversion 1); try done.
  - inversion 1; subst. constructor; [done | by apply IH].
  - inversion 1; subst. constructor; [done | by apply IH].
Qed.

Lemma fresh_is_new : Context_new = Returns notion.fresh.
Proof. reflexivity. Qed.

End OperatorCalls.

(** X3.  When a call of an operator lowers successfully, the callee of the
    call node is an immediate holding the implementation of an entry of that
    operator's overload list, the type of the call is the return type of
    that entry, the call node has as many argument nodes as the entry has
    parameters, and the type each argument lowers to is the very object the
    corresponding parameter names. *)
Theorem operator_call_matches_overload pos pos_op op args ctx t ie ctx' :
  ast.translate (ast.Call pos (ast.OperatorExpr pos_op op) args) ctx
  = (ast.Returns (t, ie), ctx') →
  ∃ overloads entry ir_args,
    ast.ops ctx !! ast.index op = Some overloads
    ∧ entry ∈ overloads
    ∧ ie = ir.Call (ir.Imm (ir.VFunc entry.2)) ir_args
    ∧ t = type.get_ret entry.1
    ∧ length ir_args = length (type.get_args entry.1)
    ∧ length ir_args = length args
    ∧ Forall2
        (λ arg param, ∃ arg_type arg_expr,
            ast.translate arg ctx = (ast.Returns (arg_type, arg_expr), ctx)
            ∧ type.addr arg_type = type.addr param)
        args (type.get_args entry.1).
Proof.
  intros Hcall.
  apply translate_Call_Returns in Hcall
    as [-> (lowered & func_type & func_expr & Hall & Hfunc & -> & ->)].
  rewrite translate_func_select in Hfunc.
  destruct (ast.ops ctx !! ast.index op) as [overloads | ]; [ | done].
  destruct (rule.select overloads (map fst lowered)) as [entry | ] eqn:Hsel;
    [ | done].
  injection Hfunc as <- <-.
  apply select_first in Hsel as (i & Hi & [Hlen Hmatch] & _).
  exists overloads, entry, (map snd lowered).
  split; [done | ]. split; [by eapply list_elem_of_lookup_2 | ].
  split; [done | ]. split; [done | ].
  rewrite !length_map in *. split; [done | ].
  split; [symmetry; by eapply Forall2_length | ].
  apply Forall2_map_r in Hmatch.
  by apply (args_meet_params ctx args lowered).
Qed.

(** [1 + 2] in the constructed context: the callee is [IAdd], of the
    entry (int, int) -> int. *)
Lemma operator_call_matches_overload_witness :
  ∃ overloads entry ir_args,
    ast.ops notion.fresh !! ast.index ast.Add = Some overloads
    ∧ entry ∈ overloads
    ∧ ir.Call (ir.Imm (ir.VFunc ir.IAdd))
        [ir.Imm (ir.VInt 1); ir.Imm (ir.VInt 2)]
      = ir.Call (ir.Imm (ir.VFunc entry.2)) ir_args
    ∧ type.Int = type.get_ret entry.1
    ∧ length ir_args = length (type.get_args entry.1)
    ∧ length ir_args
      = length [ast.Int (pos.mkRange 0 1) 1; ast.Int (pos.mkRange 4 5) 2]
    ∧ Forall2
        (λ arg param, ∃ arg_type arg_expr,
            ast.translate arg notion.fresh
            = (ast.Returns (arg_type, arg_expr), notion.fresh)
            ∧ type.addr arg_type = type.addr param)
        [ast.Int (pos.mkRange 0 1) 1; ast.Int (pos.mkRange 4 5) 2]
        (type.get_args entry.1).
Proof.
  apply (operator_call_matches_overload (pos.mkRange 0 5) (pos.mkRange 2 3)
           ast.Add _ notion.fresh _ _ notion.fresh).
  reflexivity.
Defined.

Section Fragment.
Import ast.

Lemma translate_func_operator_defined ctx pos op expected_args u :
  length (ops ctx) = NumOps →
  (translate_func (OperatorExpr pos op) expected_args ctx).1 ≠ Undef u.
Proof.
  intros Hlen. rewrite translate_func_select.
  destruct (lookup_lt_is_Some_2 (ops ctx) (index op)) as [l ->].
  { rewrite Hlen. apply index_lt_NumOps. }
  by destruct (rule.select l expected_args).
Qed.

(** An undefined outcome of the loop over the arguments is that of one of
    the arguments. *)
Lemma lower_all_Undef args ctx u :
  (rule.lower_all args ctx).1 = Undef u →
  Exists (λ arg, (translate arg ctx).1 = Undef u) args.
Proof.
  induction args as [ | arg args IH]; simpl; [done | ].
  pose proof (translate_ctx arg ctx) as Harg.
  destruct (translate arg ctx) as [[r | e | u'] ctx1] eqn:Hfirst;
    simpl in Harg; subst; simpl.
  - destruct (rule.lower_all args ctx) as [[others | e | u'] ctx2];
      simpl in *; try done.
    intros Hu. apply Exists_cons_tl. by apply IH.
  - done.
  - intros [= ->]. apply Exists_cons_hd. by rewrite Hfirst.
Qed.

Lemma translate_Undef_cases pos func args ctx u :
  (translate (Call pos func args) ctx).1 = Undef u →
  Exists (λ arg, (translate arg ctx).1 = Undef u) args
  ∨ ∃ expected_args, (translate_func func expected_args ctx).1 = Undef u.
Proof.
  rewrite translate_Call.
  pose proof (lower_all_ctx args ctx) as Hctx.
  destruct (rule.lower_all args ctx) as [[lowered | e | u'] ctx1] eqn:Hall;
    simpl in Hctx; subst.
  - intros Hu. right. exists (map fst lowered).
    destruct (translate_func func (map fst lowered) ctx)
      as [[[func_type func_expr] | e | u'] ctx2]; simpl in *; congruence.
  - done.
  - simpl. intros [= ->]. left. apply lower_all_Undef. by rewrite Hall.
Qed.

Lemma supported_args args :
  Forall (λ arg, notion.supported arg = true) args
  ↔ forallb notion.supported args = true.
Proof.
  induction args as [ | arg args IH]; simpl; [done | ].
  rewrite Forall_cons, andb_true_iff. by rewrite IH.
Qed.

End Fragment.




(** X5.  Lowering returns only for expressions made of [Int] and [Float]
    literals and of calls whose callee is an [OperatorExpr]; on such an
    expression, as long as the operator table has [NumOps] lists, it has no
    undefined behaviour: it returns, or fails at an operator that has no
    matching overload. *)
Theorem lowering_supported_fragment e :
  (∀ ctx r ctx',
      ast.translate e ctx = (ast.Returns r, ctx') →
      notion.supported e = true)
  ∧ (∀ ctx u,
      length (ast.ops ctx) = ast.NumOps → notion.supported e = true →
      (ast.translate e ctx).1 ≠ ast.Undef u).
Proof.
  induction e as [ | | | | pos func args _ IHargs | ] using Expr_nested_ind;
    split; try done.
  - intros ctx [t ie] ctx' Hcall.
    apply translate_Call_Returns in Hcall
      as [-> (lowered & func_type & func_expr & Hall & Hfunc & _)].
    destruct func; try done. cbn [notion.supported].
    apply supported_args. clear Hfunc.
    induction Hall as [ | arg r args lowered Harg _ IH]; [done | ].
    inversion IHargs as [ | ? ? [Hret _] Hrest]; subst.
    constructor; [by eapply Hret | by apply IH].
  - intros ctx u Hlen Hsup Hu.
    destruct func; try done. cbn [notion.supported] in Hsup.
    apply supported_args in Hsup.
    apply translate_Undef_cases in Hu as [Harg | [expected Hfunc]].
    + apply Exists_exists in Harg as (arg & Hin & Harg).
      rewrite Forall_forall in IHargs, Hsup.
      by apply (proj2 (IHargs arg Hin) ctx u Hlen (Hsup arg Hin)).
    + by eapply translate_func_operator_defined.
Qed.

(** [f(1)]: a call whose callee is an identifier does not return; and
    [add(1, 2.5)] has no undefined behaviour. *)
Lemma lowering_supported_fragment_witness :
  notion.supported
    (ast.Call (pos.mkRange 0 9) (ast.OperatorExpr (pos.mkRange 2 3) ast.Equal)
       [ast.Int (pos.mkRange 0 1) 1; ast.Int (pos.mkRange 4 9) 1]) = true
  ∧ (ast.translate
       (ast.Call (pos.mkRange 0 9) (ast.OperatorExpr (pos.mkRange 2 3) ast.Add)
          [ast.Int (pos.mkRange 0 1) 1;
           ast.Float (pos.mkRange 4 9) (S754_finite false 5 (-1))])
       notion.fresh).1
    ≠ ast.Undef ast.MissingReturn.
Proof.
  split.
  - eapply (proj1 (lowering_supported_fragment _) notion.fresh). reflexivity.
  - apply (proj2 (lowering_supported_fragment _)); reflexivity.
Defined.

(** ** Registering overloads *)

Section Registration.
Import ast.

Lemma select_app l k arg_types :
  rule.select (l ++ k) arg_types
  = match rule.select l arg_types with
    | Some entry => Some entry
    | None => rule.select k arg_types
    end.
Proof.
  unfold rule.select. induction l as [ | a l IH]; simpl.
  - by destruct (list_find _ k).
  - destruct (decide (rule.exact_match arg_types a)); [done | ].
    rewrite <- !option_fmap_compose. exact IH.
Qed.

Lemma select_singleton entry arg_types :
  rule.select [entry] arg_types
  = if decide (rule.exact_match arg_types entry) then Some entry else None.
Proof.
  unfold rule.select. simpl.
  by destruct (decide (rule.exact_match arg_types entry)).
Qed.

Lemma emplace_back_Returns op entry table table' :
  emplace_back op entry table = Returns table'
  ↔ ∃ overloads, table !! index op = Some overloads
      ∧ table' = <[index op := overloads ++ [entry]]> table.
Proof.
  unfold emplace_back. destruct (table !! index op) as [overloads | ].
  - split; [intros [= <-]; by exists overloads | ].
    by intros (l & [= <-] & ->).
  - split; [done | by intros (l & ? & _)].
Qed.

End Registration.

(** X6.  Registering one more overload for an operator, as
    [Context::Context] does with [emplace_back], leaves the resolution of
    every other operator as it was, and for the operator itself leaves every
    resolution that succeeded as it was: the new entry is selected only for
    argument types that matched no entry before, and only when it matches
    them exactly. *)
Theorem registration_keeps_resolution ctx op entry table' :
  ast.emplace_back op entry (ast.ops ctx) = ast.Returns table' →
  let ctx' := ast.mkContext (ast.ty ctx) table' in
  (∀ pos op' args, op' ≠ op →
      (ast.translate_func (ast.OperatorExpr pos op') args ctx').1
      = (ast.translate_func (ast.OperatorExpr pos op') args ctx).1)
  ∧ (∀ pos args found,
      (ast.translate_func (ast.OperatorExpr pos op) args ctx).1
      = ast.Returns found →
      (ast.translate_func (ast.OperatorExpr pos op) args ctx').1
      = ast.Returns found)
  ∧ (∀ pos args err,
      (ast.translate_func (ast.OperatorExpr pos op) args ctx).1
      = ast.Throws err →
      (ast.translate_func (ast.OperatorExpr pos op) args ctx').1
      = if decide (rule.exact_match args entry)
        then ast.Returns (rule.found entry)
        else ast.Throws err).
Proof.
  intros Hreg ctx'.
  apply emplace_back_Returns in Hreg as (overloads & Hop & ->).
  pose proof (lookup_lt_Some _ _ _ Hop) as Hlt.
  split; [ | split].
  - intros pos op' args Hne. rewrite !translate_func_select. simpl.
    rewrite list_lookup_insert_ne; [ | by intros ?%index_inj].
    destruct (ast.ops ctx !! ast.index op') as [l | ]; [ | done].
    by destruct (rule.select l args).
  - intros pos args found. rewrite !translate_func_select. simpl.
    rewrite list_lookup_insert_eq by done. rewrite Hop, select_app.
    by destruct (rule.select overloads args).
  - intros pos args err. rewrite !translate_func_select. simpl.
    rewrite list_lookup_insert_eq by done.
    rewrite Hop, select_app, select_singleton.
    destruct (rule.select overloads args); [done | ].
    intros [= <-]. by destruct (decide (rule.exact_match args entry)).
Qed.

(** Registering (float, float) -> float for [Add] after (int, int) -> int,
    as the constructor does: (int, int) still selects [IAdd]. *)
Lemma registration_keeps_resolution_witness :
  let iadd := (type.mkFunc 0 [type.Int; type.Int] type.Int, ir.IAdd) in
  let fadd := (type.mkFunc 1 [type.Float; type.Float] type.Float, ir.FAdd) in
  let table := <[ast.index ast.Add := [iadd]]> (replicate ast.NumOps []) in
  let table' := <[ast.index ast.Add := [iadd; fadd]]> table in
  (ast.translate_func (ast.OperatorExpr (pos.mkRange 2 3) ast.Add)
     [type.Int; type.Int] (ast.mkContext type.empty table')).1
  = ast.Returns (rule.found iadd).
Proof.
  intros iadd fadd table table'.
  apply (proj1 (proj2 (registration_keeps_resolution
                         (ast.mkContext type.empty table) ast.Add fadd table'
                         eq_refl)));
    reflexivity.
Defined.

(** ** Identity and structure *)

Section IdentityAndStructure.
Import type.

(** For objects of one well-formed registry, two sequences have the same
    addresses exactly when they have the same structures. *)
Lemma addrs_shapes reg (l k : list Type_) :
  wf reg → Forall (interned reg) l → Forall (interned reg) k →
  (map addr l = map addr k ↔ map shape l = map shape k).
Proof.
  intros Hwf Hl Hk. split.
  - intros Haddr. by rewrite (interned_addrs_inj reg l k).
  - revert k Hk. induction Hl as [ | a l Ha _ IH]; intros [ | b k] Hk;
      simpl; try done.
    inversion Hk; subst. intros [= Hab Hrest].
    f_equal; [by apply (shape_addr reg) | by apply IH].
Qed.

Lemma fresh_reachable : reachable (ast.ty notion.fresh).
Proof.
  apply (reachable_get_func
           (get_func [Float; Float] Float (get_func [Int; Int] Int empty).2).2
           [Int; Int] Bool);
    [ | repeat constructor | exact I].
  apply (reachable_get_func (get_func [Int; Int] Int empty).2
           [Float; Float] Float);
    [ | repeat constructor | exact I].
  apply (reachable_get_func empty [Int; Int] Int);
    [apply reachable_empty | repeat constructor | exact I].
Qed.

End IdentityAndStructure.

(** X8.  When the registry of the context is built by interning and the
    parameter types of an operator's overloads and the argument types are
    all objects of it, the comparison of addresses in
    [OperatorExpr::translate_func] amounts to a comparison of structures:
    resolution answers with an entry exactly when that entry is the first of
    the list whose parameter types have, one by one, the structure of the
    argument types, and it fails exactly when no entry has. *)
Theorem resolution_by_identity_is_structural ctx pos op overloads
    expected_args :
  type.reachable (ast.ty ctx) →
  ast.ops ctx !! ast.index op = Some overloads →
  Forall (λ other : ast.Overload,
            Forall (type.interned (ast.ty ctx)) (type.get_args other.1))
    overloads →
  Forall (type.interned (ast.ty ctx)) expected_args →
  (∀ entry,
      ast.translate_func (ast.OperatorExpr pos op) expected_args ctx
      = (ast.Returns (entry.1, ir.Imm (ir.VFunc entry.2)), ctx)
      ↔ ∃ i, overloads !! i = Some entry
          ∧ notion.shape_match expected_args entry
          ∧ ∀ j other, overloads !! j = Some other → j < i →
              ¬ notion.shape_match expected_args other)
  ∧ (ast.translate_func (ast.OperatorExpr pos op) expected_args ctx
     = (ast.Throws (ast.TODO op expected_args pos), ctx)
     ↔ Forall (λ other, ¬ notion.shape_match expected_args other) overloads).
Proof.
  intros Hreach Hop Hparams Hargs.
  pose proof (reachable_wf _ Hreach) as Hwf.
  assert (∀ i other, overloads !! i = Some other →
            (rule.exact_match expected_args other
             ↔ notion.shape_match expected_args other)) as Hsame.
  { intros i other Hi. rewrite exact_match_addrs. unfold notion.shape_match.
    apply (addrs_shapes (ast.ty ctx)); [done | | done].
    rewrite Forall_forall in Hparams. apply Hparams.
    by eapply list_elem_of_lookup_2. }
  rewrite translate_func_select, Hop. split.
  - intros entry. transitivity (rule.select overloads expected_args = Some entry).
    + destruct (rule.select overloads expected_args) as [[fty func] | ];
        destruct entry as [fty' func']; simpl; split; try done.
      * by intros [= -> ->].
      * by intros [= -> ->].
    + rewrite select_first. split.
      * intros (i & Hi & Hmatch & Hfirst). exists i.
        split; [done | split; [by apply (Hsame i) | ]].
        intros j other Hj Hlt Hshape. apply (Hfirst j other Hj Hlt).
        by apply (Hsame j).
      * intros (i & Hi & Hmatch & Hfirst). exists i.
        split; [done | split; [by apply (Hsame i) | ]].
        intros j other Hj Hlt Hexact. apply (Hfirst j other Hj Hlt).
        by apply (Hsame j).
  - transitivity (rule.select overloads expected_args = None).
    + by destruct (rule.select overloads expected_args).
    + rewrite select_none, !Forall_lookup. split.
      * intros Hnone i other Hi Hshape. apply (Hnone i other Hi).
        by apply (Hsame i).
      * intros Hnone i other Hi Hexact. apply (Hnone i other Hi).
        by apply (Hsame i).
Qed.

(** [Add] on (float, float) in the constructed context: the answer is the
    second entry, by structure as by address. *)
Lemma resolution_by_identity_is_structural_witness :
  let iadd := (type.mkFunc 0 [type.Int; type.Int] type.Int, ir.IAdd) in
  let fadd := (type.mkFunc 1 [type.Float; type.Float] type.Float, ir.FAdd) in
  ∃ i, [iadd; fadd] !! i = Some fadd
    ∧ notion.shape_match [type.Float; type.Float] fadd
    ∧ ∀ j other, [iadd; fadd] !! j = Some other → j < i →
        ¬ notion.shape_match [type.Float; type.Float] other.
Proof.
  intros iadd fadd.
  apply (proj1 (proj1 (resolution_by_identity_is_structural
                         notion.fresh (pos.mkRange 2 3) ast.Add [iadd; fadd]
                         [type.Float; type.Float] fresh_reachable eq_refl
                         ltac:(repeat constructor) ltac:(repeat constructor))
                  fadd)).
  reflexivity.
Defined.

(** ** The shape of the lowered tree *)

Section LoweredShape.
Import ast.

Lemma lowered_args_shape ctx args (lowered : list (type.Type_ * ir.Expr)) :
  Forall
    (λ arg, ∀ ctx t ie ctx',
        translate arg ctx = (Returns (t, ie), ctx') →
        notion.direct_calls ie = true ∧ notion.ir_nodes ie = notion.nodes arg)
    args →
  Forall2 (λ arg r, translate arg ctx = (Returns r, ctx)) args lowered →
  forallb notion.direct_calls (map snd lowered) = true
  ∧ list_sum (map notion.ir_nodes (map snd lowered))
    = list_sum (map notion.nodes args).
Proof.
  intros IH Hall. induction Hall as [ | arg [t ie] args lowered Harg _ IHall];
    [done | ].
  inversion IH as [ | ? ? Hfirst Hrest]; subst.
  destruct (Hfirst _ _ _ _ Harg) as [Hdirect Hnodes].
  destruct (IHall Hrest) as [Hdirects Hsum]. simpl.
  by rewrite Hdirect, Hdirects, Hnodes, Hsum.
Qed.

End LoweredShape.

(** X10.  The tree lowering returns mirrors the expression node for node:
    it has as many nodes as the expression, and the callee of each of its
    call nodes is an immediate holding a function, never a computed
    callee. *)
Theorem lowered_tree_mirrors_expression e :
  ∀ ctx t ie ctx',
    ast.translate e ctx = (ast.Returns (t, ie), ctx') →
    notion.direct_calls ie = true ∧ notion.ir_nodes ie = notion.nodes e.
Proof.
  induction e as [ | | | | pos func args _ IHargs | ] using Expr_nested_ind;
    intros ctx t ie ctx' Hlower; try done;
    try (by injection Hlower as _ <- _).
  apply translate_Call_Returns in Hlower
    as [-> (lowered & func_type & func_expr & Hall & Hfunc & _ & ->)].
  destruct (lowered_args_shape ctx args lowered IHargs Hall) as [Hdirect Hsum].
  destruct func as [ | | | | | pos_op op]; try done.
  rewrite translate_func_select in Hfunc.
  destruct (ast.ops ctx !! ast.index op) as [overloads | ]; [ | done].
  destruct (rule.select overloads (map fst lowered)) as [entry | ]; [ | done].
  injection Hfunc as _ <-. simpl. by rewrite Hdirect, Hsum.
Qed.

(** [1 + 2] in the constructed context: three nodes on either side. *)
Lemma lowered_tree_mirrors_expression_witness :
  notion.direct_calls
    (ir.Call (ir.Imm (ir.VFunc ir.IAdd))
       [ir.Imm (ir.VInt 1); ir.Imm (ir.VInt 2)]) = true
  ∧ notion.ir_nodes
      (ir.Call (ir.Imm (ir.VFunc ir.IAdd))
         [ir.Imm (ir.VInt 1); ir.Imm (ir.VInt 2)])
    = notion.nodes
        (ast.Call (pos.mkRange 0 5)
           (ast.OperatorExpr (pos.mkRange 2 3) ast.Add)
           [ast.Int (pos.mkRange 0 1) 1; ast.Int (pos.mkRange 4 5) 2]).
Proof.
  apply (lowered_tree_mirrors_expression _ notion.fresh type.Int _ notion.fresh).
  reflexivity.
Defined.

(** ** More on the debug dump *)

Section DumpFacts.
Import ast.
Variable show_pos : pos.Range → string.
Variable show_double : double → string.

Lemma append_cancel_l (s a b : string) : s +:+ a = s +:+ b → a = b.
Proof. induction s as [ | c s IH]; simpl; [done | ]. intros [= H]. by apply IH. Qed.

Lemma Operator_name_inj op op' :
  Operator_name op +:+ ")" = Operator_name op' +:+ ")" → op = op'.
Proof. destruct op, op'; simpl; intros H; try done; discriminate H. Qed.


End DumpFacts.

(** X11.  The display names of the operators are pairwise distinct, so the
    line the dump writes for an operator determines the operator, whatever
    the depth and the way the span is shown. *)
Theorem operator_dump_determines_operator :
  (∀ op op', ast.Operator_name op = ast.Operator_name op' → op = op')
  ∧ (∀ show_pos show_double depth pos op op',
      ast.Expr_debug_print show_pos show_double depth (ast.OperatorExpr pos op)
      = ast.Expr_debug_print show_pos show_double depth
          (ast.OperatorExpr pos op') →
      op = op').
Proof.
  split.
  - intros op op' Hname. apply Operator_name_inj. by rewrite Hname.
  - intros show_pos show_double depth pos op op' [= Hline].
    do 3 apply append_cancel_l in Hline. by apply Operator_name_inj.
Qed.



(** ** Shadowed overloads *)

(** X14.  An overload registered after another one of the same operator
    with the same parameter types is never the one resolution answers with
    on account of its position: whenever it matches the argument types,
    resolution returns an entry registered no later than the earlier of the
    two. *)
Theorem later_duplicate_is_shadowed ctx pos op overloads i j first second
    expected_args :
  ast.ops ctx !! ast.index op = Some overloads →
  overloads !! i = Some first → overloads !! j = Some second → i < j →
  map type.addr (type.get_args first.1) = map type.addr (type.get_args second.1) →
  rule.exact_match expected_args second →
  ∃ k selected,
    k ≤ i ∧ overloads !! k = Some selected
    ∧ ast.translate_func (ast.OperatorExpr pos op) expected_args ctx
      = (ast.Returns (selected.1, ir.Imm (ir.VFunc selected.2)), ctx).
Proof.
  intros Hop Hi Hj Hlt Hsame Hsecond.
  assert (rule.exact_match expected_args first) as Hfirst.
  { apply exact_match_addrs. apply exact_match_addrs in Hsecond. congruence. }
  rewrite translate_func_select, Hop.
  destruct (rule.select overloads expected_args) as [selected | ] eqn:Hsel.
  - apply select_first in Hsel as (k & Hk & _ & Hmin).
    exists k, selected. split; [ | done].
    destruct (decide (k ≤ i)) as [ | Hgt]; [done | ].
    exfalso. apply (Hmin i first Hi); [lia | done].
  - apply select_none in Hsel. rewrite Forall_forall in Hsel.
    exfalso. apply (Hsel first); [by eapply list_elem_of_lookup_2 | done].
Qed.

(** Two entries for (int, int) under [Add]: the second, [IEq], is never
    reached. *)
Lemma later_duplicate_is_shadowed_witness :
  let iadd := (type.mkFunc 0 [type.Int; type.Int] type.Int, ir.IAdd) in
  let ieq := (type.mkFunc 1 [type.Int; type.Int] type.Bool, ir.IEq) in
  let ctx :=
    ast.mkContext type.empty
      (<[ast.index ast.Add := [iadd; ieq]]> (replicate ast.NumOps [])) in
  ∃ k selected,
    k ≤ 0 ∧ [iadd; ieq] !! k = Some selected
    ∧ ast.translate_func (ast.OperatorExpr (pos.mkRange 2 3) ast.Add)
        [type.Int; type.Int] ctx
      = (ast.Returns (selected.1, ir.Imm (ir.VFunc selected.2)), ctx).
Proof.
  intros iadd ieq ctx.
  apply (later_duplicate_is_shadowed ctx (pos.mkRange 2 3) ast.Add
           [iadd; ieq] 0 1 iadd ieq [type.Int; type.Int]);
    try reflexivity; [lia | ].
  split; [reflexivity | repeat constructor].
Defined.
